(** * Encoder block (src/Encoder.py): heap model of [Encoder.forward]

    The encoder layer adds a positional-encoding table to its input in
    place, runs multi-head self-attention, adds a residual, normalises,
    runs the position-wise feed-forward block, adds a residual and
    normalises again.  Tensors are Python objects that are mutated in
    place and aliased by several variables, so the model keeps an explicit
    object store and threads it through every statement. *)

From stdpp Require Import base option list sets.
From Stdlib Require Import Lia.

(** ** Exceptions and results *)

(** Every failure of the forward pass surfaces as a Python [RuntimeError];
    the constructor records which operation raised it. *)
Inductive exn : Type :=
  | BroadcastError        (* in-place add: operand does not broadcast onto self *)
  | NormalizedShapeError  (* LayerNorm: trailing dimension differs from normalized_shape *)
  | BlockError            (* raised inside an external sub-block *)
  | DanglingReference.    (* a name bound to no object; unreachable from Python *)

Inductive result (A : Type) : Type :=
  | Ok (a : A)
  | Raise (e : exn).
Arguments Ok {A} a.
Arguments Raise {A} e.

Definition result_bind {A B} (r : result A) (f : A -> result B) : result B :=
  match r with Ok a => f a | Raise e => Raise e end.

(** ** Shapes, strides and broadcasting (torch semantics) *)

Definition numel (s : list nat) : nat := foldr Nat.mul 1 s.

(** Strides of a contiguous tensor of shape [s]. *)
Fixpoint contiguous_strides (s : list nat) : list nat :=
  match s with
  | [] => []
  | _ :: s' => numel s' :: contiguous_strides s'
  end.

(** [infer_size] on reversed shapes (innermost dimension first): a missing
    dimension counts as 1, two sizes are compatible when they are equal or
    one of them is 1. *)
Fixpoint infer_size_rev (a b : list nat) : option (list nat) :=
  match a, b with
  | [], _ => Some b
  | _, [] => Some a
  | x :: a', y :: b' =>
      if (x =? y) || (x =? 1) || (y =? 1)
      then cons (if x =? 1 then y else x) <$> infer_size_rev a' b'
      else None
  end.

Definition infer_size (a b : list nat) : option (list nat) :=
  reverse <$> infer_size_rev (reverse a) (reverse b).

(** Strides of [other] expanded to the shape [target], reversed: a
    dimension that is stretched (or missing) gets stride 0. *)
Fixpoint expand_strides_rev (target other strides : list nat) : list nat :=
  match target with
  | [] => []
  | t :: target' =>
      match other, strides with
      | o :: other', s :: strides' =>
          (if o =? t then s else 0) :: expand_strides_rev target' other' strides'
      | _, _ => 0 :: expand_strides_rev target' [] []
      end
  end.

Definition expand_strides (target other : list nat) : list nat :=
  reverse (expand_strides_rev (reverse target) (reverse other)
             (reverse (contiguous_strides other))).

(** Every index of the space [sizes], read through [strides] from the
    offset [off], falls inside a storage of [len] scalars. *)
Fixpoint reads_within (sizes strides : list nat) (off len : nat) : Prop :=
  match sizes, strides with
  | [], _ => off < len
  | n :: sizes', s :: strides' =>
      forall i, i < n -> reads_within sizes' strides' (off + i * s) len
  | _ :: _, [] => True
  end.

Section Tensors.

(** The scalar type of the tensors and its addition. *)
Context {R : Type} (add : R -> R -> R).

Record Tensor : Type := mkTensor { shape : list nat; data : list R }.

(** A tensor is well formed when its storage holds exactly one scalar
    per index of its shape. *)
Definition wf (t : Tensor) : Prop := length (data t) = numel (shape t).

(** The element-wise loop of an in-place binary operation: walk the
    index space [sizes] in row-major order, reading [self] and [other]
    through their strides. *)
Fixpoint add_loop (sizes sstr ostr : list nat) (sd od : list R)
    (soff ooff : nat) : list R :=
  match sizes, sstr, ostr with
  | [], _, _ =>
      match sd !! soff, od !! ooff with
      | Some a, Some b => [add a b]
      | _, _ => []
      end
  | n :: sizes', ss :: sstr', os :: ostr' =>
      flat_map (fun i => add_loop sizes' sstr' ostr' sd od
                           (soff + i * ss) (ooff + i * os))
               (seq 0 n)
  | _, _, _ => []
  end.

(** [self.add_(other)] on values: [other] must broadcast onto the shape
    of [self]; the result keeps the shape of [self]. *)
Definition add_value (self other : Tensor) : result Tensor :=
  if decide (infer_size (shape self) (shape other) = Some (shape self))
  then Ok (mkTensor (shape self)
             (add_loop (shape self)
                (contiguous_strides (shape self))
                (expand_strides (shape self) (shape other))
                (data self) (data other) 0 0))
  else Raise BroadcastError.

(** [torch.cat((a, b), dim=0)] of two tensors that agree on every
    dimension but the first. *)
Definition cat0 (a b : Tensor) : Tensor :=
  match shape a, shape b with
  | n :: s, m :: _ => mkTensor (n + m :: s) (data a ++ data b)
  | _, _ => a
  end.

(** ** The object store and the monad of statements *)

(** Objects are named by their position in the store; the store only
    grows, since nothing here depends on garbage collection.  A cell is
    a tensor together with its storage: every tensor owns its data, and
    views, which share the storage of another tensor, are not
    represented.  Two different locations therefore stand for two
    tensors that share no storage. *)
Abbreviation loc := nat (only parsing).
Abbreviation heap := (list Tensor) (only parsing).

(** A statement transforms the store and either yields a value or raises;
    the store survives a raise, as it does in Python. *)
Definition M (A : Type) : Type := heap -> result A * heap.

Definition ret {A} (a : A) : M A := fun h => (Ok a, h).
Definition bind {A B} (m : M A) (f : A -> M B) : M B :=
  fun h => match m h with
           | (Ok a, h') => f a h'
           | (Raise e, h') => (Raise e, h')
           end.
Definition lift {A} (r : result A) : M A := fun h => (r, h).

Definition read (l : loc) : M Tensor :=
  fun h => match h !! l with
           | Some t => (Ok t, h)
           | None => (Raise DanglingReference, h)
           end.
Definition write (l : loc) (t : Tensor) : M unit :=
  fun h => (Ok tt, <[l := t]> h).
Definition alloc (t : Tensor) : M loc :=
  fun h => (Ok (length h), h ++ [t]).

Fixpoint read_all (ls : list loc) : M (list Tensor) :=
  match ls with
  | [] => ret []
  | l :: ls' => bind (read l) (fun t => bind (read_all ls') (fun ts => ret (t :: ts)))
  end.

End Tensors.

Arguments Tensor R : clear implicits.
Arguments M R A : clear implicits.

Abbreviation loc := nat (only parsing).
Abbreviation heap R := (list (Tensor R)) (only parsing).

Declare Scope stmt_scope.
Delimit Scope stmt_scope with stmt.
Notation "x <- m ;; k" := (bind m (fun x => k))
  (at level 100, m at next level, right associativity) : stmt_scope.
Notation "m ;; k" := (bind m (fun _ => k))
  (at level 100, right associativity) : stmt_scope.

(** ** torch.nn.Module objects *)

(** [nn.Module.parameters()]: the learnable tensors a module registered,
    followed by those of its registered sub-modules. *)
Class Module (T : Type) := parameters : T -> list loc.

Section Encoder.

Context {R : Type} (add : R -> R -> R).

(** *** External sub-blocks (src/blocks.py) *)

(** Modelled from the spec: [MultiHeadAttention] and
    [PositionwiseFeedForward] are defined in src/blocks.py, which is not
    at hand.  An instance owns learnable parameter tensors and maps its
    argument tensors to an output tensor: it computes a new tensor from
    the current values of its parameters and of its arguments, and
    neither mutates its arguments nor returns one of them. *)
Record Block : Type := mkBlock {
  block_parameters : list loc;
  block_forward : list (Tensor R) -> list (Tensor R) -> result (Tensor R)
}.

#[export] Instance Block_Module : Module Block := block_parameters.

Definition Block_call (b : Block) (args : list loc) : M R loc :=
  (ps <- read_all (block_parameters b) ;;
   xs <- read_all args ;;
   y <- lift (block_forward b ps xs) ;;
   alloc y)%stmt.

(** *** torch.nn.LayerNorm *)

(** The arithmetic applied to one feature vector: centre, divide by the
    standard deviation, scale by [weight] and shift by [bias].  It is
    floating-point arithmetic and stays a parameter. *)
Context (normalize_row : list R -> list R -> list R -> list R).
Context (zero one : R).

Record LayerNorm : Type := mkLayerNorm {
  normalized_shape : nat;
  weight : loc;
  bias : loc
}.

#[export] Instance LayerNorm_Module : Module LayerNorm :=
  fun m => [weight m; bias m].

(** [nn.LayerNorm(d)]: [weight] starts as ones, [bias] as zeros. *)
Definition LayerNorm_init (d : nat) : M R LayerNorm :=
  (w <- alloc (mkTensor [d] (replicate d one)) ;;
   b <- alloc (mkTensor [d] (replicate d zero)) ;;
   ret (mkLayerNorm d w b))%stmt.

(** Normalisation acts on each vector along the last dimension, which
    must have size [normalized_shape]; the result is a new tensor of the
    same shape. *)
Definition layer_norm (n : nat) (w b x : Tensor R) : result (Tensor R) :=
  if decide (last (shape x) = Some n)
  then Ok (mkTensor (shape x)
             (flat_map (fun i => normalize_row (data w) (data b)
                                   (take n (drop (i * n) (data x))))
                       (seq 0 (numel (removelast (shape x))))))
  else Raise NormalizedShapeError.

Definition LayerNorm_call (m : LayerNorm) (x : loc) : M R loc :=
  (w <- read (weight m) ;;
   b <- read (bias m) ;;
   t <- read x ;;
   y <- lift (layer_norm (normalized_shape m) w b t) ;;
   alloc y)%stmt.

(** *** torch.Tensor.add_ *)

(** [self.add_(other)]: both operands are read, the sum is stored in the
    object [self] refers to, and [self] is returned. *)
Definition add_ (self other : loc) : M R loc :=
  (s <- read self ;;
   o <- read other ;;
   t <- lift (add_value add s o) ;;
   write self t ;;
   ret self)%stmt.

(** *** The Encoder *)

Record Encoder : Type := mkEncoder {
  _selfAttention : Block;
  _feedForward : Block;
  _layerNorm1 : LayerNorm;
  _layerNorm2 : LayerNorm;
  _PE : loc
}.

(** The four sub-modules are registered by attribute assignment; [_PE]
    is a plain tensor attribute and is registered nowhere. *)
#[export] Instance Encoder_Module : Module Encoder :=
  fun self => parameters (_selfAttention self) ++ parameters (_feedForward self)
              ++ parameters (_layerNorm1 self) ++ parameters (_layerNorm2 self).

(** The constructors of the external sub-blocks and the table generator
    of src/utils.py are parameters. *)
Context (MultiHeadAttention : nat -> nat -> nat -> nat -> M R Block).
Context (PositionwiseFeedForward : nat -> M R Block).
Context (generate_positional_encoding : nat -> nat -> Tensor R).

Definition __init__ (d_model q v h k : nat) : M R Encoder :=
  (selfAttention <- MultiHeadAttention d_model q v h ;;
   feedForward <- PositionwiseFeedForward d_model ;;
   layerNorm1 <- LayerNorm_init d_model ;;
   layerNorm2 <- LayerNorm_init d_model ;;
   PE <- alloc (generate_positional_encoding k d_model) ;;
   ret (mkEncoder selfAttention feedForward layerNorm1 layerNorm2 PE))%stmt.

Definition forward (self : Encoder) (x : loc) : M R loc :=
  ((* Add position encoding *)
   add_ x (_PE self) ;;
   (* Self attention *)
   let residual := x in
   x <- Block_call (_selfAttention self) [x; x; x] ;;
   add_ x residual ;;
   x <- LayerNorm_call (_layerNorm1 self) x ;;
   (* Feed forward *)
   let redisual := x in
   x <- Block_call (_feedForward self) [x] ;;
   add_ x residual ;;
   x <- LayerNorm_call (_layerNorm2 self) x ;;
   ret x)%stmt.

End Encoder.

Arguments Block R : clear implicits.
Arguments Encoder R : clear implicits.

Declare Scope result_scope.
Delimit Scope result_scope with res.
Notation "x <- m ;; k" := (result_bind m (fun x => k))
  (at level 100, m at next level, right associativity) : result_scope.

(** ** The forward pass on values *)

Section Values.

Context {R : Type} (add : R -> R -> R).
Context (normalize_row : list R -> list R -> list R -> list R).

(** The tensors stored at [ls], in order. *)
Definition lookup_all (h : heap R) (ls : list loc) : result (list (Tensor R)) :=
  fst (read_all ls h).

(** What a sub-module computes from its arguments when its parameters
    hold the values stored in [h]. *)
Definition Block_value (b : Block R) (h : heap R) (args : list (Tensor R))
    : result (Tensor R) :=
  (ps <- lookup_all h (block_parameters b) ;; block_forward b ps args)%res.

Definition LayerNorm_value (m : LayerNorm) (h : heap R) (x : Tensor R)
    : result (Tensor R) :=
  (ps <- lookup_all h [weight m; bias m] ;;
   match ps with
   | [w; b] => layer_norm normalize_row (normalized_shape m) w b x
   | _ => Raise DanglingReference
   end)%res.

Context (self : Encoder R) (h : heap R).

Definition Attention (query key value : Tensor R) : result (Tensor R) :=
  Block_value (_selfAttention self) h [query; key; value].
Definition FeedForward (x : Tensor R) : result (Tensor R) :=
  Block_value (_feedForward self) h [x].
Definition Normalize1 : Tensor R -> result (Tensor R) :=
  LayerNorm_value (_layerNorm1 self) h.
Definition Normalize2 : Tensor R -> result (Tensor R) :=
  LayerNorm_value (_layerNorm2 self) h.

(** Lines 73-76: attention on the encoded input, residual, first
    normalisation. *)
Definition sublayer1 (x' : Tensor R) : result (Tensor R) :=
  (a <- Attention x' x' x' ;;
   s <- add_value add a x' ;;
   Normalize1 s)%res.

(** Lines 79-82 with the residual [r]: feed-forward, residual, second
    normalisation. *)
Definition sublayer2 (r y1 : Tensor R) : result (Tensor R) :=
  (f <- FeedForward y1 ;;
   s <- add_value add f r ;;
   Normalize2 s)%res.

(** The value the source returns for the input value [x] and the table
    value [pe]: the name [residual] still denotes the encoded input when
    line 81 adds it. *)
Definition forward_value (x pe : Tensor R) : result (Tensor R) :=
  (x' <- add_value add x pe ;;
   y1 <- sublayer1 x' ;;
   sublayer2 x' y1)%res.

(** The forward contract in the words of the specification (steps 1-4):
    [r1 = x'], [y1 = Normalize1 (a + r1)], [r2 = y1],
    [y2 = Normalize2 (f + r2)]. *)
Definition spec_forward_value (x pe : Tensor R) : result (Tensor R) :=
  (x' <- add_value add x pe ;;
   let r1 := x' in
   a <- Attention x' x' x' ;;
   s <- add_value add a r1 ;;
   y1 <- Normalize1 s ;;
   let r2 := y1 in
   f <- FeedForward y1 ;;
   s <- add_value add f r2 ;;
   Normalize2 s)%res.

(** The store and the result after [forward self x], statement by
    statement, when [x] holds [tx] and the table holds [tpe]. *)
Definition forward_outcome (x : loc) (tx tpe : Tensor R) : result loc * heap R :=
  match add_value add tx tpe with
  | Raise e => (Raise e, h)
  | Ok x' =>
    let h1 := <[x := x']> h in
    match Attention x' x' x' with
    | Raise e => (Raise e, h1)
    | Ok a =>
      match add_value add a x' with
      | Raise e => (Raise e, h1 ++ [a])
      | Ok s1 =>
        match Normalize1 s1 with
        | Raise e => (Raise e, h1 ++ [s1])
        | Ok y1 =>
          match FeedForward y1 with
          | Raise e => (Raise e, h1 ++ [s1; y1])
          | Ok f =>
            match add_value add f x' with
            | Raise e => (Raise e, h1 ++ [s1; y1; f])
            | Ok s2 =>
              match Normalize2 s2 with
              | Raise e => (Raise e, h1 ++ [s1; y1; s2])
              | Ok y2 => (Ok (length h + 3), h1 ++ [s1; y1; s2; y2])
              end
            end
          end
        end
      end
    end
  end.

End Values.

(** ** Well-formed encoders and observations *)

Section Invariant.

Context {R : Type}.

(** The tensor a finished statement returned, read from the final
    store. *)
Definition deref (o : result loc * heap R) : result (Tensor R) :=
  match o with
  | (Ok l, h) =>
      match h !! l with Some t => Ok t | None => Raise DanglingReference end
  | (Raise e, _) => Raise e
  end.

(** What [__init__ d_model q v h k] establishes and every later state
    of the program keeps: the table is a stored tensor of shape
    [(k, d_model)], both normalisations act on vectors of size
    [d_model], and every parameter is a stored tensor. *)
Record Encoder_inv (d_model k : nat) (self : Encoder R) (h : heap R) : Prop := {
  inv_PE : exists pe, h !! _PE self = Some pe /\ shape pe = [k; d_model];
  inv_norm1 : normalized_shape (_layerNorm1 self) = d_model;
  inv_norm2 : normalized_shape (_layerNorm2 self) = d_model;
  inv_params : Forall (fun p => p < length h) (parameters self)
}.

(** [h'] extends [h] and agrees with it on every cell below [n] other
    than [x]. *)
Definition frame (n : nat) (x : loc) (h h' : heap R) : Prop :=
  length h <= length h' /\
  forall l, l < n -> l ≠ x -> h' !! l = h !! l.

(** A statement that, started in a store of at least [n] cells, writes
    only to [x] and to cells it allocated, and whose result satisfies
    [P]. *)
Definition writes_only {A} (n : nat) (x : loc) (P : A -> Prop) (m : M R A) : Prop :=
  forall h, n <= length h ->
    frame n x h (snd (m h)) /\ forall a, fst (m h) = Ok a -> P a.

(** A constructor that only allocates: the store it leaves extends the
    one it found, and the parameters of the new module are stored. *)
Definition allocates_module {T} `{Module T} (c : M R T) : Prop :=
  forall h b h', c h = (Ok b, h') ->
    (exists ext, h' = h ++ ext) /\ Forall (fun p => p < length h') (parameters b).

(** A tensor function that keeps the shape and well-formedness of
    inputs of shape [s]. *)
Definition shape_preserving (f : Tensor R -> result (Tensor R)) (s : list nat) : Prop :=
  forall t y, shape t = s -> wf t -> f t = Ok y -> shape y = s /\ wf y.

(** A tensor function defined on every input of shape [s]. *)
Definition accepts (f : Tensor R -> result (Tensor R)) (s : list nat) : Prop :=
  forall t, shape t = s -> exists y, f t = Ok y /\ shape y = s.

(** A tensor function that treats the two elements of a batch of two
    inputs of shape [1 :: s] as it treats each of them alone. *)
Definition batch_independent (f : Tensor R -> result (Tensor R)) (s : list nat) : Prop :=
  forall a b ya yb,
    shape a = 1 :: s -> shape b = 1 :: s -> wf a -> wf b ->
    f a = Ok ya -> f b = Ok yb ->
    f (cat0 a b) = Ok (cat0 ya yb).

End Invariant.

(** ** A concrete encoder over integer tensors *)

Module Fixture.

(** A sub-block with one parameter tensor, a row of biases, that adds
    it to its last argument. *)
Definition shift_forward (ps xs : list (Tensor Z)) : result (Tensor Z) :=
  match ps, last xs with
  | [w], Some x => add_value Z.add x w
  | _, _ => Raise BlockError
  end.

Definition shift_block (d : nat) (c : Z) : M Z (Block Z) :=
  (w <- alloc (mkTensor [1; d] (replicate d c)) ;;
   ret (mkBlock [w] shift_forward))%stmt.

(** The affine part of the normalisation only: scale by [w], shift by
    [b]. *)
Definition affine_row (w b r : list Z) : list Z :=
  imap (fun i x => (x * default 1 (w !! i) + default 0 (b !! i))%Z) r.

Definition table (k d : nat) : Tensor Z :=
  mkTensor [k; d] (map (fun i => Z.of_nat (10 * S i)) (seq 0 (k * d))).

Definition init (d_model k : nat) : M Z (Encoder Z) :=
  __init__ 0%Z 1%Z (fun d _ _ _ => shift_block d 100) (fun d => shift_block d 1000)
    table d_model 1 1 1 k.

Definition forward := @forward Z Z.add affine_row.

(** The encoder [init d_model k] builds in a store that holds one
    tensor, and the store it leaves. *)
Definition encoder (d_model : nat) : Encoder Z :=
  mkEncoder (mkBlock [1] shift_forward) (mkBlock [2] shift_forward)
    (mkLayerNorm d_model 3 4) (mkLayerNorm d_model 5 6) 7.

Definition store (d_model k : nat) (x : Tensor Z) : heap Z :=
  [x;
   mkTensor [1; d_model] (replicate d_model 100%Z);
   mkTensor [1; d_model] (replicate d_model 1000%Z);
   mkTensor [d_model] (replicate d_model 1%Z);
   mkTensor [d_model] (replicate d_model 0%Z);
   mkTensor [d_model] (replicate d_model 1%Z);
   mkTensor [d_model] (replicate d_model 0%Z);
   table k d_model].

(** Inputs: one position, two positions, and a batch of two. *)
Definition x1 : Tensor Z := mkTensor [1; 1; 2] [1; 2]%Z.
Definition x2 : Tensor Z := mkTensor [1; 2; 2] [1; 2; 3; 4]%Z.
Definition x3 : Tensor Z := mkTensor [1; 2; 2] [5; 6; 7; 8]%Z.

(** A store that holds two inputs and their batch next to an encoder
    with a table of two rows. *)
Definition batch_store : heap Z := store 2 2 x2 ++ [x3; cat0 x2 x3].

(** A second encoder, built by [init d_model k] in the store the first
    one left, and the store after both constructions. *)
Definition encoder2 (d_model : nat) : Encoder Z :=
  mkEncoder (mkBlock [8] shift_forward) (mkBlock [9] shift_forward)
    (mkLayerNorm d_model 10 11) (mkLayerNorm d_model 12 13) 14.

Definition store2 (d_model k : nat) (x : Tensor Z) : heap Z :=
  store d_model k x
  ++ [mkTensor [1; d_model] (replicate d_model 100%Z);
      mkTensor [1; d_model] (replicate d_model 1000%Z);
      mkTensor [d_model] (replicate d_model 1%Z);
      mkTensor [d_model] (replicate d_model 0%Z);
      mkTensor [d_model] (replicate d_model 1%Z);
      mkTensor [d_model] (replicate d_model 0%Z);
      table k d_model].

(** A tensor of rank 1. *)
Definition x4 : Tensor Z := mkTensor [2] [1; 2]%Z.

(** One position with three features. *)
Definition x5 : Tensor Z := mkTensor [1; 1; 3] [1; 2; 3]%Z.

(** Construct an encoder in a store that already holds the input, then
    run the forward pass on that input. *)
Definition run (d_model k : nat) (x : Tensor Z) : result loc * heap Z :=
  match init d_model k [x] with
  | (Ok self, h) => forward self 0 h
  | (Raise e, h) => (Raise e, h)
  end.

Definition run_value (d_model k : nat) (x : Tensor Z) : result (Tensor Z) :=
  deref (run d_model k x).

(** The value the specification asks for, for the same encoder and the
    same input. *)
Definition spec_value (d_model k : nat) (x : Tensor Z) : result (Tensor Z) :=
  match init d_model k [x] with
  | (Ok self, h) =>
      match h !! _PE self with
      | Some pe => spec_forward_value Z.add affine_row self h x pe
      | None => Raise DanglingReference
      end
  | (Raise e, _) => Raise e
  end.

End Fixture.

(** * Properties *)

(** ** The primitives of the store *)

Section StoreFacts.

Context {R : Type} (add : R -> R -> R).
Implicit Types (h : heap R) (t : Tensor R) (l : loc).

Lemma read_all_heap h ls : snd (read_all ls h) = h.
Proof.
  induction ls as [|l ls IH]; [done|].
  simpl. unfold bind, read. destruct (h !! l) as [t|]; [|done].
  destruct (read_all ls h) as [[ts|e] h'] eqn:E; simpl in *; by subst.
Qed.

Lemma read_all_run h ls : read_all ls h = (lookup_all h ls, h).
Proof.
  unfold lookup_all. rewrite <- (read_all_heap h ls) at 3.
  apply surjective_pairing.
Qed.

Lemma lookup_all_nil h : lookup_all h [] = Ok [].
Proof. done. Qed.

Lemma lookup_all_cons h l ls :
  lookup_all h (l :: ls) =
    match h !! l with
    | Some t => (ts <- lookup_all h ls ;; Ok (t :: ts))%res
    | None => Raise DanglingReference
    end.
Proof.
  unfold lookup_all at 1. simpl. unfold bind, read.
  destruct (h !! l) as [t|]; [|done].
  rewrite read_all_run. simpl. by destruct (lookup_all h ls).
Qed.

(** Reading depends only on the cells that are read. *)
Lemma lookup_all_agree h h' ls :
  (forall l, l ∈ ls -> h' !! l = h !! l) ->
  lookup_all h' ls = lookup_all h ls.
Proof.
  induction ls as [|l ls IH]; intros Hag; [done|].
  rewrite !lookup_all_cons, Hag by set_solver.
  rewrite IH; [done|]. intros; apply Hag; set_solver.
Qed.

Lemma add__run h self other ts to :
  h !! self = Some ts -> h !! other = Some to ->
  add_ add self other h =
    match add_value add ts to with
    | Ok t => (Ok self, <[self := t]> h)
    | Raise e => (Raise e, h)
    end.
Proof.
  intros Hs Ho. unfold add_, bind, read, lift, write, ret.
  rewrite Hs, Ho. by destruct (add_value add ts to).
Qed.

Lemma Block_call_run (b : Block R) h args :
  Block_call b args h =
    match lookup_all h (block_parameters b) with
    | Raise e => (Raise e, h)
    | Ok ps =>
        match lookup_all h args with
        | Raise e => (Raise e, h)
        | Ok xs =>
            match block_forward b ps xs with
            | Ok y => (Ok (length h), h ++ [y])
            | Raise e => (Raise e, h)
            end
        end
    end.
Proof.
  unfold Block_call, bind, lift, alloc. rewrite read_all_run.
  destruct (lookup_all h (block_parameters b)); [|done].
  rewrite read_all_run. destruct (lookup_all h args); [|done].
  by destruct (block_forward _ _ _).
Qed.

End StoreFacts.

(** ** Symbolic execution of the forward pass *)

Section ForwardRun.

Context {R : Type} (add : R -> R -> R).
Context (normalize_row : list R -> list R -> list R -> list R).
Implicit Types (h : heap R) (t : Tensor R) (l : loc) (self : Encoder R).

Lemma Block_call_value (b : Block R) h args xs :
  lookup_all h args = Ok xs ->
  Block_call b args h =
    match Block_value b h xs with
    | Ok y => (Ok (length h), h ++ [y])
    | Raise e => (Raise e, h)
    end.
Proof.
  intros Hxs. rewrite Block_call_run, Hxs. unfold Block_value.
  by destruct (lookup_all h (block_parameters b)).
Qed.

Lemma LayerNorm_call_value (m : LayerNorm) h x t :
  h !! x = Some t ->
  LayerNorm_call normalize_row m x h =
    match LayerNorm_value normalize_row m h t with
    | Ok y => (Ok (length h), h ++ [y])
    | Raise e => (Raise e, h)
    end.
Proof.
  intros Hx. unfold LayerNorm_call, LayerNorm_value, bind, read, lift, alloc.
  rewrite !lookup_all_cons, lookup_all_nil.
  destruct (h !! weight m) as [w|]; [|done].
  destruct (h !! bias m) as [b|]; [|done].
  rewrite Hx. simpl. by destruct (layer_norm _ _ _ _ _).
Qed.

Lemma Block_value_agree (b : Block R) h h' xs :
  (forall l, l ∈ parameters b -> h' !! l = h !! l) ->
  Block_value b h' xs = Block_value b h xs.
Proof. intros Hag. unfold Block_value. by rewrite (lookup_all_agree h h'). Qed.

Lemma LayerNorm_value_agree (m : LayerNorm) h h' t :
  (forall l, l ∈ parameters m -> h' !! l = h !! l) ->
  LayerNorm_value normalize_row m h' t = LayerNorm_value normalize_row m h t.
Proof. intros Hag. unfold LayerNorm_value. by rewrite (lookup_all_agree h h'). Qed.

(** Cells below the original length other than [x] are not affected by
    updating [x] and extending the store. *)
Lemma store_frame h x t ext l :
  l < length h -> l ≠ x -> (<[x := t]> h ++ ext) !! l = h !! l.
Proof.
  intros Hl Hne. rewrite lookup_app_l by (by rewrite length_insert).
  by apply list_lookup_insert_ne.
Qed.

Lemma store_self h x t t0 ext :
  h !! x = Some t0 -> (<[x := t]> h ++ ext) !! x = Some t.
Proof.
  intros Hx. apply lookup_lt_Some in Hx.
  rewrite lookup_app_l by (by rewrite length_insert).
  by apply list_lookup_insert_eq.
Qed.

Lemma store_new h x t ext1 t1 ext2 n :
  n = length h + length ext1 ->
  (<[x := t]> h ++ ext1 ++ t1 :: ext2) !! n = Some t1.
Proof.
  intros ->. rewrite app_assoc. apply list_lookup_middle.
  by rewrite length_app, length_insert.
Qed.

Lemma store_set_new h x t ext1 t1 t2 n :
  n = length h + length ext1 ->
  <[n := t2]> (<[x := t]> h ++ ext1 ++ [t1]) = <[x := t]> h ++ ext1 ++ [t2].
Proof.
  intros ->. rewrite !app_assoc.
  rewrite insert_app_r_alt by (rewrite length_app, length_insert; lia).
  rewrite length_app, length_insert, Nat.sub_diag. done.
Qed.

Lemma Encoder_parameters self :
  parameters self
  = parameters (_selfAttention self) ++ parameters (_feedForward self)
    ++ parameters (_layerNorm1 self) ++ parameters (_layerNorm2 self).
Proof. reflexivity. Qed.

Lemma Encoder_parameters_sub self :
  parameters (_selfAttention self) ⊆ parameters self
  /\ parameters (_feedForward self) ⊆ parameters self
  /\ parameters (_layerNorm1 self) ⊆ parameters self
  /\ parameters (_layerNorm2 self) ⊆ parameters self.
Proof.
  rewrite Encoder_parameters.
  repeat split; intros p Hp; rewrite !elem_of_app; auto.
Qed.

(** The parameters of a sub-module of [self] keep their values while
    [forward self x] runs, as long as [x] is none of them. *)
Lemma params_frame self h x t ext (ps : list loc) :
  ps ⊆ parameters self ->
  x ∉ parameters self ->
  (forall p, p ∈ parameters self -> p < length h) ->
  forall l, l ∈ ps -> (<[x := t]> h ++ ext) !! l = h !! l.
Proof.
  intros Hsub Hnp Hv l Hl. apply store_frame; [apply Hv; set_solver|].
  intros ->. apply Hnp. set_solver.
Qed.

Lemma forward_run self h x tx tpe :
  h !! x = Some tx ->
  h !! _PE self = Some tpe ->
  x ∉ parameters self ->
  (forall p, p ∈ parameters self -> p < length h) ->
  forward add normalize_row self x h
  = forward_outcome add normalize_row self h x tx tpe.
Proof.
  intros Hx Hpe Hnp Hv.
  destruct (Encoder_parameters_sub self) as (Hsa & Hff & Hl1 & Hl2).
  unfold forward, forward_outcome, Attention, FeedForward, Normalize1, Normalize2.
  unfold bind at 1. rewrite (add__run add h x (_PE self) tx tpe Hx Hpe).
  destruct (add_value add tx tpe) as [x'|e]; [|done].
  set (h1 := <[x := x']> h).
  assert (Hx1 : forall ext, (h1 ++ ext) !! x = Some x')
    by (intros; by eapply store_self).
  assert (Hlen : length h1 = length h) by apply length_insert.
  (* self attention *)
  unfold bind at 1.
  rewrite (Block_call_value _ h1 _ [x'; x'; x']); last first.
  { rewrite !lookup_all_cons, lookup_all_nil.
    specialize (Hx1 []). rewrite app_nil_r in Hx1. by rewrite Hx1. }
  rewrite (Block_value_agree _ h h1); last first.
  { intros l Hl. rewrite <- (app_nil_r h1).
    apply (params_frame self h x x' [] _ Hsa Hnp Hv l Hl). }
  destruct (Block_value (_selfAttention self) h [x'; x'; x']) as [a|e]; [|done].
  unfold bind at 1.
  rewrite (add__run add (h1 ++ [a]) (length h1) x a x'); [| |done]; last first.
  { apply (store_new h x x' [] a []). simpl. lia. }
  destruct (add_value add a x') as [s1|e]; [|done].
  rewrite (store_set_new h x x' [] a s1) by (simpl; lia). simpl app. fold h1.
  (* first normalisation *)
  unfold bind at 1.
  rewrite (LayerNorm_call_value (_layerNorm1 self) (h1 ++ [s1]) _ s1);
    [|apply (store_new h x x' [] s1 []); simpl; lia].
  rewrite (LayerNorm_value_agree _ h (h1 ++ [s1]))
    by apply (params_frame self h x x' _ _ Hl1 Hnp Hv).
  destruct (LayerNorm_value normalize_row (_layerNorm1 self) h s1) as [y1|e]; [|done].
  rewrite <- app_assoc. simpl app.
  (* feed forward *)
  unfold bind at 1.
  rewrite (Block_call_value _ _ _ [y1]); last first.
  { rewrite lookup_all_cons, lookup_all_nil, length_app, Hlen.
    rewrite (store_new h x x' [s1] y1 []); [done|simpl; lia]. }
  rewrite (Block_value_agree _ h (h1 ++ _))
    by apply (params_frame self h x x' _ _ Hff Hnp Hv).
  destruct (Block_value (_feedForward self) h [y1]) as [f|e]; [|done].
  rewrite <- app_assoc. simpl app.
  unfold bind at 1.
  rewrite (add__run add _ _ x f x'); [| |done]; last first.
  { apply (store_new h x x' [s1; y1] f []). rewrite length_app, Hlen. simpl. lia. }
  destruct (add_value add f x') as [s2|e]; [|done].
  rewrite (store_set_new h x x' [s1; y1] f s2)
    by (rewrite length_app, Hlen; simpl; lia).
  simpl app. fold h1.
  (* second normalisation *)
  unfold bind at 1.
  rewrite (LayerNorm_call_value (_layerNorm2 self) _ _ s2);
    [|apply (store_new h x x' [s1; y1] s2 []); rewrite length_app, Hlen; simpl; lia].
  rewrite (LayerNorm_value_agree _ h (h1 ++ _))
    by apply (params_frame self h x x' _ _ Hl2 Hnp Hv).
  destruct (LayerNorm_value normalize_row (_layerNorm2 self) h s2) as [y2|e]; [|done].
  rewrite <- app_assoc. simpl app. unfold ret.
  rewrite length_app, Hlen. done.
Qed.

End ForwardRun.

(** ** Broadcasting onto the shape of an in-place operand *)

Section Broadcast.

Context {R : Type} (add : R -> R -> R).
Implicit Types (h : heap R) (t : Tensor R) (self : Encoder R).

Lemma infer_size_unfold (a b : list nat) :
  infer_size a b = Some a <-> infer_size_rev (reverse a) (reverse b) = Some (reverse a).
Proof.
  unfold infer_size. destruct (infer_size_rev _ _) as [r|]; simpl; [|done].
  split; intros [= E]; f_equal.
  - by rewrite <- E, reverse_involutive.
  - by rewrite E, reverse_involutive.
Qed.

(** A trailing dimension of the operand that is not 1 must be the
    trailing dimension of [self]. *)
Lemma infer_size_last (a b : list nat) y :
  infer_size a b = Some a -> last b = Some y -> y ≠ 1 -> last a = Some y.
Proof.
  rewrite infer_size_unfold, <- !head_reverse.
  destruct (reverse b) as [|y' rb]; [done|]. intros E [= ->] Hy.
  destruct (reverse a) as [|x ra]; [done|]. simpl in *.
  destruct (Nat.eqb_spec x y) as [->|Hxy]; [done|].
  destruct (Nat.eqb_spec x 1) as [->|Hx1]; simpl in E.
  - destruct (infer_size_rev ra rb); simpl in E; [|done].
    injection E as E _. by destruct (Hxy).
  - destruct (Nat.eqb_spec y 1); [done|done].
Qed.

(** A table of shape [(k, d')] broadcasts onto [(B, K, d)] exactly when
    each of its dimensions is the matching one or 1. *)
Lemma infer_size_table (B K d k d' : nat) :
  infer_size [B; K; d] [k; d'] = Some [B; K; d]
  <-> (k = K \/ k = 1) /\ (d' = d \/ d' = 1).
Proof.
  rewrite infer_size_unfold. cbn.
  destruct (Nat.eqb_spec d d'), (Nat.eqb_spec d 1), (Nat.eqb_spec d' 1),
    (Nat.eqb_spec K k), (Nat.eqb_spec K 1), (Nat.eqb_spec k 1);
    cbn; split; try (intros [= ?]); try (intros [[?|?] [?|?]]);
    subst; try done; try lia; try (split; by auto).
Qed.

Lemma infer_size_refl (s : list nat) : infer_size s s = Some s.
Proof.
  rewrite infer_size_unfold. induction (reverse s) as [|x r IH]; [done|].
  simpl. rewrite Nat.eqb_refl, IH. simpl.
  destruct (Nat.eqb_spec x 1); by subst.
Qed.

Lemma add_value_Ok_inv t o y :
  add_value add t o = Ok y ->
  infer_size (shape t) (shape o) = Some (shape t) /\ shape y = shape t.
Proof. unfold add_value. case_decide; [|done]. by intros [= <-]. Qed.

Lemma add_value_Ok_data t o y :
  add_value add t o = Ok y ->
  y = mkTensor (shape t)
        (add_loop add (shape t) (contiguous_strides (shape t))
           (expand_strides (shape t) (shape o)) (data t) (data o) 0 0).
Proof. unfold add_value. case_decide; [|done]. by intros [= <-]. Qed.

Lemma add_value_raise t o :
  infer_size (shape t) (shape o) ≠ Some (shape t) ->
  add_value add t o = Raise BroadcastError.
Proof. intros. unfold add_value. by case_decide. Qed.

Lemma add_value_Ok t o :
  infer_size (shape t) (shape o) = Some (shape t) ->
  exists y, add_value add t o = Ok y /\ shape y = shape t.
Proof. intros. unfold add_value. case_decide; [|done]. by eexists. Qed.

(** When the table does not broadcast onto the input, line 70 raises
    and nothing has been written. *)
Lemma forward_broadcast_error normalize_row self h x tx tpe :
  h !! x = Some tx -> h !! _PE self = Some tpe ->
  infer_size (shape tx) (shape tpe) ≠ Some (shape tx) ->
  forward add normalize_row self x h = (Raise BroadcastError, h).
Proof.
  intros Hx Hpe Hne. unfold forward. unfold bind at 1.
  by rewrite (add__run add h x _ tx tpe Hx Hpe), add_value_raise.
Qed.

End Broadcast.

(** ** What the forward pass writes *)

Section Frame.

Context {R : Type} (add : R -> R -> R).
Context (normalize_row : list R -> list R -> list R -> list R).
Implicit Types (h : heap R) (t : Tensor R) (self : Encoder R).

Lemma frame_refl n x h : frame n x h h.
Proof. by split. Qed.

Lemma frame_trans n x h1 h2 h3 :
  frame n x h1 h2 -> frame n x h2 h3 -> frame n x h1 h3.
Proof.
  intros [Hl1 H1] [Hl2 H2]. split; [lia|].
  intros l Hl Hx. by rewrite H2, H1.
Qed.

Lemma writes_only_pure {A} n x (P : A -> Prop) (m : M R A) :
  (forall h, snd (m h) = h) -> (forall h a, fst (m h) = Ok a -> P a) ->
  writes_only n x P m.
Proof.
  intros Hs HP h _. rewrite Hs. split; [apply frame_refl|apply HP].
Qed.

Lemma writes_only_bind {A B} n x (P : A -> Prop) (Q : B -> Prop) m (f : A -> M R B) :
  writes_only n x P m ->
  (forall a, P a -> writes_only n x Q (f a)) ->
  writes_only n x Q (bind m f).
Proof.
  intros Hm Hf h Hn. unfold bind.
  destruct (Hm h Hn) as [Hfr HP].
  destruct (m h) as [[a|e] h'] eqn:E; simpl in *; [|done].
  destruct (Hf a (HP a eq_refl) h') as [Hfr' HQ]; [destruct Hfr; lia|].
  split; [by eapply frame_trans|done].
Qed.

Lemma writes_only_weaken {A} n x (P Q : A -> Prop) (m : M R A) :
  (forall a, P a -> Q a) -> writes_only n x P m -> writes_only n x Q m.
Proof. intros HPQ Hm h Hn. destruct (Hm h Hn). split; auto. Qed.

Lemma writes_only_ret {A} n x (a : A) : writes_only n x (fun b => b = a) (ret (R:=R) a).
Proof. apply writes_only_pure; [done|]. by intros h b [= <-]. Qed.

Lemma writes_only_read n x l : writes_only n x (fun _ => True) (read (R:=R) l).
Proof.
  apply writes_only_pure; [|done]. intros h. unfold read. by destruct (h !! l).
Qed.

Lemma writes_only_read_all n x ls : writes_only n x (fun _ => True) (read_all (R:=R) ls).
Proof. apply writes_only_pure; [|done]. intros h. apply read_all_heap. Qed.

Lemma writes_only_lift {A} n x (r : result A) : writes_only n x (fun _ => True) (lift (R:=R) r).
Proof. by apply writes_only_pure. Qed.

Lemma writes_only_alloc n x t : writes_only n x (fun l => n <= l) (alloc t).
Proof.
  intros h Hn. unfold alloc. simpl. split; [|by intros a [= <-]].
  split; [rewrite length_app; lia|].
  intros l Hl _. apply lookup_app_l. lia.
Qed.

Lemma writes_only_write n x l t :
  l = x \/ n <= l -> writes_only n x (fun _ => True) (write l t).
Proof.
  intros Hl h Hn. unfold write. simpl. split; [|done].
  split; [by rewrite length_insert|].
  intros l' Hl' Hne. apply list_lookup_insert_ne. lia.
Qed.

Lemma writes_only_add_ n x (target other : loc) :
  target = x \/ n <= target ->
  writes_only n x (fun l => l = target) (add_ add target other).
Proof.
  intros Hs. unfold add_.
  eapply writes_only_bind; [apply writes_only_read|intros s _].
  eapply writes_only_bind; [apply writes_only_read|intros o _].
  eapply writes_only_bind; [apply writes_only_lift|intros t _].
  eapply writes_only_bind; [by apply writes_only_write|intros _ _].
  apply writes_only_ret.
Qed.

Lemma writes_only_Block_call n x (b : Block R) args :
  writes_only n x (fun l => n <= l) (Block_call b args).
Proof.
  unfold Block_call.
  eapply writes_only_bind; [apply writes_only_read_all|intros ps _].
  eapply writes_only_bind; [apply writes_only_read_all|intros xs _].
  eapply writes_only_bind; [apply writes_only_lift|intros y _].
  apply writes_only_alloc.
Qed.

Lemma writes_only_LayerNorm_call n x (m : LayerNorm) l :
  writes_only n x (fun l => n <= l) (LayerNorm_call normalize_row m l).
Proof.
  unfold LayerNorm_call.
  eapply writes_only_bind; [apply writes_only_read|intros w _].
  eapply writes_only_bind; [apply writes_only_read|intros b _].
  eapply writes_only_bind; [apply writes_only_read|intros t _].
  eapply writes_only_bind; [apply writes_only_lift|intros y _].
  apply writes_only_alloc.
Qed.

(** The forward pass writes to its argument and to the tensors it
    creates, and returns one of the latter. *)
Lemma writes_only_forward n self x :
  writes_only n x (fun l => n <= l) (forward add normalize_row self x).
Proof.
  unfold forward.
  eapply writes_only_bind; [apply writes_only_add_; by left|intros _ _].
  eapply writes_only_bind; [apply writes_only_Block_call|intros a Ha].
  eapply writes_only_bind; [apply writes_only_add_; by right|intros _ _].
  eapply writes_only_bind; [apply writes_only_LayerNorm_call|intros y1 Hy1].
  eapply writes_only_bind; [apply writes_only_Block_call|intros f Hf].
  eapply writes_only_bind; [apply writes_only_add_; by right|intros _ _].
  eapply writes_only_bind; [apply writes_only_LayerNorm_call|intros y2 Hy2].
  eapply writes_only_weaken; [|apply writes_only_ret]. by intros ? ->.
Qed.

Lemma forward_frame self x h :
  frame (length h) x h (snd (forward add normalize_row self x h)).
Proof. by apply (writes_only_forward (length h) self x h). Qed.

(** The invariant of the encoder survives every forward pass, returning
    or not, whose argument is not the table itself. *)
Lemma forward_keeps_inv (d_model k : nat) self x h :
  Encoder_inv d_model k self h ->
  x ≠ _PE self ->
  Encoder_inv d_model k self (snd (forward add normalize_row self x h)).
Proof.
  intros [(pe & Hpe & Hs) Hn1 Hn2 Hps] Hne.
  destruct (forward_frame self x h) as [Hlen Hfr].
  split; [|done|done|].
  - exists pe. split; [|done].
    rewrite Hfr; [done| by eapply lookup_lt_Some |done].
  - eapply Forall_impl; [done|]. simpl. lia.
Qed.

End Frame.

(** ** Normalisation and the shape of its argument *)

Section LayerNormFacts.

Context {R : Type}.
Context (normalize_row : list R -> list R -> list R -> list R).
Implicit Types (h : heap R) (t : Tensor R) (m : LayerNorm).

Lemma layer_norm_Ok_inv n w b t y :
  layer_norm normalize_row n w b t = Ok y ->
  last (shape t) = Some n /\ shape y = shape t.
Proof. unfold layer_norm. case_decide; [|done]. by intros [= <-]. Qed.

Lemma LayerNorm_value_Ok_inv m h t y :
  LayerNorm_value normalize_row m h t = Ok y ->
  last (shape t) = Some (normalized_shape m) /\ shape y = shape t.
Proof.
  unfold LayerNorm_value.
  destruct (lookup_all h _) as [[|w [|b [|]]]|]; simpl; try done.
  apply layer_norm_Ok_inv.
Qed.

Lemma LayerNorm_value_Ok m h t :
  Forall (fun p => p < length h) (parameters m) ->
  last (shape t) = Some (normalized_shape m) ->
  exists y, LayerNorm_value normalize_row m h t = Ok y /\ shape y = shape t.
Proof.
  intros Hv Hlast. unfold LayerNorm_value.
  apply Forall_cons in Hv as [Hw Hv]. apply Forall_cons in Hv as [Hb _].
  rewrite !lookup_all_cons, lookup_all_nil.
  destruct (lookup_lt_is_Some_2 _ _ Hw) as [w ->].
  destruct (lookup_lt_is_Some_2 _ _ Hb) as [b ->]. simpl.
  unfold layer_norm. case_decide; [|done]. by eexists.
Qed.

End LayerNormFacts.

(** ** The sequence length and the feature dimension of the input *)

Section ShapeClaims.

Context {R : Type} (add : R -> R -> R).
Context (normalize_row : list R -> list R -> list R -> list R).
Implicit Types (h : heap R) (t : Tensor R) (self : Encoder R).

Lemma inv_params_lt d_model k self h :
  Encoder_inv d_model k self h ->
  forall p, p ∈ parameters self -> p < length h.
Proof. intros Hinv. apply Forall_forall, Hinv. Qed.

Lemma inv_params_sub d_model k self h (ps : list loc) :
  Encoder_inv d_model k self h -> ps ⊆ parameters self ->
  Forall (fun p => p < length h) ps.
Proof.
  intros Hinv Hsub. apply Forall_forall. intros p Hp.
  eapply inv_params_lt; [done|]. by apply Hsub.
Qed.

(** Claim C10.  When the table has more than one row, the forward pass
    accepts no sequence length but k: an input of shape (B, K, d) with
    K < k (or, for that matter, K > k) makes the in-place addition of
    line 70 raise, and the forward pass ends with a broadcast error and
    has written nothing. *)
Theorem forward_rejects_shorter_sequence self h x tx tpe (B K d k d_model : nat) :
  h !! x = Some tx ->
  h !! _PE self = Some tpe ->
  shape tpe = [k; d_model] ->
  shape tx = [B; K; d] ->
  1 < k -> K < k \/ k < K ->
  forward add normalize_row self x h = (Raise BroadcastError, h).
Proof.
  intros Hx Hpe Hspe Hsx Hk HK.
  apply (forward_broadcast_error add normalize_row self h x tx tpe Hx Hpe).
  rewrite Hsx, Hspe, infer_size_table. lia.
Qed.

(** Claim C5, amended.  When the table does not have exactly one row, an
    input of shape (B, K, d) with K > k makes the in-place addition of
    line 70 raise: the forward pass ends with a broadcast error and has
    written nothing. *)
Theorem forward_rejects_longer_sequence self h x tx tpe (B K d k d_model : nat) :
  h !! x = Some tx ->
  h !! _PE self = Some tpe ->
  shape tpe = [k; d_model] ->
  shape tx = [B; K; d] ->
  k ≠ 1 -> k < K ->
  forward add normalize_row self x h = (Raise BroadcastError, h).
Proof.
  intros Hx Hpe Hspe Hsx Hk HK.
  apply (forward_broadcast_error add normalize_row self h x tx tpe Hx Hpe).
  rewrite Hsx, Hspe, infer_size_table. lia.
Qed.

(** Claim C2, amended.  For an input of shape (B, K, d_model) whose
    sequence length K is the number k of rows of the table (or when the
    table has a single row), and sub-blocks that accept that shape and
    keep it, the forward pass returns a tensor of shape
    (B, K, d_model). *)
Theorem forward_preserves_shape (d_model k : nat) self h x tx (B K : nat) :
  Encoder_inv d_model k self h ->
  h !! x = Some tx ->
  x ∉ parameters self ->
  shape tx = [B; K; d_model] ->
  K = k \/ k = 1 ->
  accepts (fun t => Attention self h t t t) [B; K; d_model] ->
  accepts (FeedForward self h) [B; K; d_model] ->
  exists out h' y,
    forward add normalize_row self x h = (Ok out, h')
    /\ h' !! out = Some y
    /\ shape y = [B; K; d_model].
Proof.
  intros Hinv Hx Hnp Hsx HK Hatt Hff.
  destruct (inv_PE _ _ _ _ Hinv) as (tpe & Hpe & Hspe).
  destruct (Encoder_parameters_sub self) as (_ & _ & Hl1 & Hl2).
  rewrite (forward_run add normalize_row self h x tx tpe Hx Hpe Hnp
             (inv_params_lt _ _ _ _ Hinv)).
  unfold forward_outcome.
  destruct (add_value_Ok add tx tpe) as (x' & -> & Hsx').
  { rewrite Hsx, Hspe, infer_size_table. lia. }
  rewrite Hsx in Hsx'.
  destruct (Hatt x' Hsx') as (a & -> & Hsa).
  destruct (add_value_Ok add a x') as (s1 & -> & Hs1).
  { rewrite Hsa, Hsx'. apply infer_size_refl. }
  rewrite Hsa in Hs1.
  destruct (LayerNorm_value_Ok normalize_row (_layerNorm1 self) h s1)
    as (y1 & Hy1 & Hsy1).
  { by eapply inv_params_sub. }
  { by rewrite Hs1, (inv_norm1 _ _ _ _ Hinv). }
  unfold Normalize1. rewrite Hy1. rewrite Hs1 in Hsy1.
  destruct (Hff y1 Hsy1) as (f & -> & Hsf).
  destruct (add_value_Ok add f x') as (s2 & -> & Hs2).
  { rewrite Hsf, Hsx'. apply infer_size_refl. }
  rewrite Hsf in Hs2.
  destruct (LayerNorm_value_Ok normalize_row (_layerNorm2 self) h s2)
    as (y2 & Hy2 & Hsy2).
  { by eapply inv_params_sub. }
  { by rewrite Hs2, (inv_norm2 _ _ _ _ Hinv). }
  unfold Normalize2. rewrite Hy2. rewrite Hs2 in Hsy2.
  eexists _, _, y2. split; [done|]. split; [|done].
  apply (store_new h x x' [s1; y1; s2] y2 []). simpl. lia.
Qed.

(** Claim C6, amended.  For an input whose last dimension is not d_model
    the forward pass raises and returns nothing; when d_model is not 1
    the exception is the broadcast error of line 70, raised before
    anything is written.  (When d_model is 1 the table may broadcast
    onto the input, and then no tensor the attention block may return
    survives both the residual addition of line 75 and the normalisation
    of line 76.) *)
Theorem forward_rejects_feature_mismatch (d_model k : nat) self h x tx :
  Encoder_inv d_model k self h ->
  h !! x = Some tx ->
  x ∉ parameters self ->
  last (shape tx) ≠ Some d_model ->
  exists e h',
    forward add normalize_row self x h = (Raise e, h')
    /\ (d_model ≠ 1 -> e = BroadcastError /\ h' = h).
Proof.
  intros Hinv Hx Hnp Hlast.
  destruct (inv_PE _ _ _ _ Hinv) as (tpe & Hpe & Hspe).
  destruct (decide (infer_size (shape tx) (shape tpe) = Some (shape tx)))
    as [Hbc|Hbc]; last first.
  { eexists _, _. split; [by eapply forward_broadcast_error|done]. }
  assert (d_model = 1) as Hd.
  { destruct (decide (d_model = 1)) as [|Hne]; [done|]. destruct Hlast.
    apply (infer_size_last _ _ _ Hbc); [by rewrite Hspe|done]. }
  assert (exists d, last (shape tx) = Some d /\ d ≠ 1) as (d & Hd1 & Hd2).
  { destruct (last (shape tx)) as [d|] eqn:E.
    - exists d. split; [done|]. intros ->. apply Hlast. by rewrite Hd.
    - apply last_None in E. rewrite E, Hspe in Hbc. done. }
  rewrite (forward_run add normalize_row self h x tx tpe Hx Hpe Hnp
             (inv_params_lt _ _ _ _ Hinv)).
  unfold forward_outcome.
  destruct (add_value add tx tpe) as [x'|e] eqn:Ex'; [|by eexists _, _].
  apply add_value_Ok_inv in Ex' as [_ Hsx'].
  destruct (Attention _ _ _ _ _) as [a|e]; [|by eexists _, _].
  destruct (add_value add a x') as [s1|e] eqn:Es1; [|by eexists _, _].
  apply add_value_Ok_inv in Es1 as [Hbc1 Hs1].
  apply (infer_size_last _ _ d) in Hbc1; [|by rewrite Hsx'|done].
  destruct (Normalize1 _ _ _ s1) as [y1|e] eqn:Ey1; [|by eexists _, _].
  apply LayerNorm_value_Ok_inv in Ey1 as [Hn1 _].
  rewrite Hs1, Hbc1, (inv_norm1 _ _ _ _ Hinv) in Hn1.
  injection Hn1 as ->. by destruct Hd2.
Qed.

End ShapeClaims.

(** ** Residuals, aliasing and determinism *)

Section WiringClaims.

Context {R : Type} (add : R -> R -> R).
Context (normalize_row : list R -> list R -> list R -> list R).
Implicit Types (h : heap R) (t : Tensor R) (self : Encoder R).

(** The tensor the forward pass returns is [forward_value]: the second
    residual addition adds the encoded input. *)
Lemma forward_deref self h x tx tpe :
  h !! x = Some tx ->
  h !! _PE self = Some tpe ->
  x ∉ parameters self ->
  (forall p, p ∈ parameters self -> p < length h) ->
  deref (forward add normalize_row self x h)
  = forward_value add normalize_row self h tx tpe.
Proof.
  intros Hx Hpe Hnp Hv.
  rewrite (forward_run add normalize_row self h x tx tpe Hx Hpe Hnp Hv).
  unfold forward_outcome, forward_value, sublayer1, sublayer2.
  destruct (add_value add tx tpe) as [x'|]; [simpl|done].
  destruct (Attention _ _ _ _ _) as [a|]; [simpl|done].
  destruct (add_value add a x') as [s1|]; [simpl|done].
  destruct (Normalize1 _ _ _ _) as [y1|]; [simpl|done].
  destruct (FeedForward _ _ _) as [f|]; [simpl|done].
  destruct (add_value add f x') as [s2|]; [simpl|done].
  destruct (Normalize2 _ _ _ _) as [y2|]; [simpl|done].
  rewrite (store_new h x x' [s1; y1; s2] y2 []); [done|simpl; lia].
Qed.

(** The contract of the specification differs from [forward_value] in
    the residual of the second sub-layer only. *)
Lemma spec_forward_value_sublayers self h tx tpe :
  spec_forward_value add normalize_row self h tx tpe
  = (x' <- add_value add tx tpe ;;
     y1 <- sublayer1 add normalize_row self h x' ;;
     sublayer2 add normalize_row self h y1 y1)%res.
Proof.
  unfold spec_forward_value, sublayer1, sublayer2.
  destruct (add_value add tx tpe) as [x'|]; [simpl|done].
  destruct (Attention _ _ _ _ _) as [a|]; [simpl|done].
  by destruct (add_value add a x') as [s1|].
Qed.

(** Claim C3.  When the forward pass returns, the tensor created by the
    first normalisation (line 76) is Normalize1 (Attention (x', x', x')
    + x'), where x' = x + PE is the encoded input: it is the query, the
    key and the value of the attention block and the residual of line
    75.  The feed-forward sub-layer is then applied to that tensor. *)
Theorem forward_first_sublayer self h x tx tpe out h' :
  h !! x = Some tx ->
  h !! _PE self = Some tpe ->
  x ∉ parameters self ->
  Forall (fun p => p < length h) (parameters self) ->
  forward add normalize_row self x h = (Ok out, h') ->
  exists x' a s y1 y2,
    add_value add tx tpe = Ok x'
    /\ Attention self h x' x' x' = Ok a
    /\ add_value add a x' = Ok s
    /\ Normalize1 normalize_row self h s = Ok y1
    /\ h' !! (length h + 1) = Some y1
    /\ sublayer2 add normalize_row self h x' y1 = Ok y2
    /\ h' !! out = Some y2.
Proof.
  intros Hx Hpe Hnp Hv Hrun. rewrite Forall_forall in Hv.
  rewrite (forward_run add normalize_row self h x tx tpe Hx Hpe Hnp Hv) in Hrun.
  unfold forward_outcome in Hrun. unfold sublayer2.
  destruct (add_value add tx tpe) as [x'|] eqn:Ex'; [|done].
  destruct (Attention _ _ _ _ _) as [a|] eqn:Ea; [|done].
  destruct (add_value add a x') as [s1|] eqn:Es1; [|done].
  destruct (Normalize1 _ _ _ _) as [y1|] eqn:Ey1; [|done].
  destruct (FeedForward _ _ _) as [f|] eqn:Ef; [|done].
  destruct (add_value add f x') as [s2|] eqn:Es2; [|done].
  destruct (Normalize2 _ _ _ _) as [y2|] eqn:Ey2; [|done].
  injection Hrun as <- <-. exists x', a, s1, y1, y2.
  split_and!; try done.
  - apply (store_new h x x' [s1] y1 [s2; y2]). simpl. lia.
  - by rewrite Ef; simpl; rewrite Es2.
  - apply (store_new h x x' [s1; y1; s2] y2 []). simpl. lia.
Qed.

(** Claim C4.  When the forward pass returns, the tensor object it was
    given holds x + PE, and the tensor it returns is a new object: line
    70 is the only statement that writes to the caller's tensor. *)
Theorem forward_mutates_input self h x tx tpe out h' :
  h !! x = Some tx ->
  h !! _PE self = Some tpe ->
  forward add normalize_row self x h = (Ok out, h') ->
  exists x',
    add_value add tx tpe = Ok x'
    /\ h' !! x = Some x'
    /\ x < length h <= out.
Proof.
  intros Hx Hpe Hrun.
  pose proof (lookup_lt_Some _ _ _ Hx) as Hlt.
  unfold forward in Hrun. unfold bind at 1 in Hrun.
  rewrite (add__run add h x _ tx tpe Hx Hpe) in Hrun.
  destruct (add_value add tx tpe) as [x'|]; [|done].
  exists x'. split; [done|].
  match type of Hrun with
  | ?rest _ = _ =>
      assert (writes_only (length h) (length h) (fun l => length h <= l) rest) as Hw
  end.
  { eapply writes_only_bind; [apply writes_only_Block_call|intros a Ha].
    eapply writes_only_bind; [apply writes_only_add_; by right|intros _ _].
    eapply writes_only_bind; [apply writes_only_LayerNorm_call|intros y1 Hy1].
    eapply writes_only_bind; [apply writes_only_Block_call|intros f Hf].
    eapply writes_only_bind; [apply writes_only_add_; by right|intros _ _].
    eapply writes_only_bind; [apply writes_only_LayerNorm_call|intros y2 Hy2].
    eapply writes_only_weaken; [|apply writes_only_ret]. by intros ? ->. }
  destruct (Hw (<[x := x']> h)) as [[_ Hfr] Hout]; [by rewrite length_insert|].
  rewrite Hrun in Hfr, Hout. simpl in *.
  split; [|split; [done|by apply Hout]].
  rewrite Hfr by lia. by apply list_lookup_insert_eq.
Qed.


End WiringClaims.

(** ** Construction and the life of the positional table *)

Section Lifecycle.

Context {R : Type} (add : R -> R -> R).
Context (normalize_row : list R -> list R -> list R -> list R).
Context (zero one : R).
Context (MultiHeadAttention : nat -> nat -> nat -> nat -> M R (Block R)).
Context (PositionwiseFeedForward : nat -> M R (Block R)).
Context (generate_positional_encoding : nat -> nat -> Tensor R).
Implicit Types (h : heap R) (t : Tensor R) (self : Encoder R).

(** The constructors of the external sub-blocks only allocate. *)
Hypothesis MultiHeadAttention_allocates :
  forall d_model q v hd, allocates_module (MultiHeadAttention d_model q v hd).
Hypothesis PositionwiseFeedForward_allocates :
  forall d_model, allocates_module (PositionwiseFeedForward d_model).

Lemma LayerNorm_init_run d h :
  LayerNorm_init zero one d h
  = (Ok (mkLayerNorm d (length h) (length h + 1)),
     h ++ [mkTensor [d] (replicate d one); mkTensor [d] (replicate d zero)]).
Proof.
  unfold LayerNorm_init, bind, alloc, ret. rewrite length_app. simpl.
  by rewrite <- app_assoc.
Qed.

(** The state [__init__] leaves: the sub-blocks were built first, then
    the two normalisations, and the table is the newest object. *)
Lemma __init___run d_model q v hd k h0 self h :
  __init__ zero one MultiHeadAttention PositionwiseFeedForward
    generate_positional_encoding d_model q v hd k h0 = (Ok self, h) ->
  exists sa ff hb,
    let n := length hb in
    self = mkEncoder sa ff (mkLayerNorm d_model n (n + 1))
             (mkLayerNorm d_model (n + 2) (n + 3)) (n + 4)
    /\ h = hb ++ [mkTensor [d_model] (replicate d_model one);
                  mkTensor [d_model] (replicate d_model zero);
                  mkTensor [d_model] (replicate d_model one);
                  mkTensor [d_model] (replicate d_model zero);
                  generate_positional_encoding k d_model]
    /\ length h0 <= n
    /\ Forall (fun p => p < n) (parameters sa)
    /\ Forall (fun p => p < n) (parameters ff).
Proof.
  unfold __init__. unfold bind at 1.
  destruct (MultiHeadAttention d_model q v hd h0) as [[sa|e] h1] eqn:Esa; [|done].
  destruct (MultiHeadAttention_allocates _ _ _ _ _ _ _ Esa) as [[ext1 ->] Hsa].
  unfold bind at 1.
  destruct (PositionwiseFeedForward d_model (h0 ++ ext1)) as [[ff|e] h2] eqn:Eff;
    [|done].
  destruct (PositionwiseFeedForward_allocates _ _ _ _ Eff) as [[ext2 ->] Hff].
  unfold bind at 1. rewrite LayerNorm_init_run.
  unfold bind at 1. rewrite LayerNorm_init_run.
  unfold bind, alloc, ret. intros [= <- <-].
  exists sa, ff, ((h0 ++ ext1) ++ ext2). simpl.
  rewrite !length_app. simpl. split_and!.
  - f_equal; [f_equal; lia | lia].
  - by rewrite <- !app_assoc.
  - lia.
  - eapply Forall_impl; [done|]. intros p. rewrite !length_app. lia.
  - eapply Forall_impl; [done|]. intros p. rewrite !length_app. lia.
Qed.

Lemma __init___parameters d_model q v hd k h0 self h :
  __init__ zero one MultiHeadAttention PositionwiseFeedForward
    generate_positional_encoding d_model q v hd k h0 = (Ok self, h) ->
  Forall (fun p => p < _PE self) (parameters self) /\ _PE self < length h.
Proof.
  intros Hinit. apply __init___run in Hinit as (sa & ff & hb & Hself & -> & _ & Hsa & Hff).
  subst self. rewrite Encoder_parameters. simpl. split.
  - rewrite !Forall_app. split_and!.
    + eapply Forall_impl; [done|]. simpl. lia.
    + eapply Forall_impl; [done|]. simpl. lia.
    + repeat (apply Forall_cons_2; [simpl; lia|]). apply Forall_nil_2.
  - rewrite length_app. simpl. lia.
Qed.

(** [__init__] establishes the invariant of the encoder when the
    generator returns a table of shape [(k, d_model)]. *)
Lemma __init___inv d_model q v hd k h0 self h :
  shape (generate_positional_encoding k d_model) = [k; d_model] ->
  __init__ zero one MultiHeadAttention PositionwiseFeedForward
    generate_positional_encoding d_model q v hd k h0 = (Ok self, h) ->
  Encoder_inv d_model k self h.
Proof.
  intros Hshape Hinit.
  destruct (__init___parameters _ _ _ _ _ _ _ _ Hinit) as [Hps Hpe].
  apply __init___run in Hinit as (sa & ff & hb & Hself & Hh & _).
  split.
  - exists (generate_positional_encoding k d_model). split; [|done].
    subst self h. simpl.
    rewrite (lookup_app_r hb) by lia.
    by replace (length hb + 4 - length hb) with 4 by lia.
  - by subst self.
  - by subst self.
  - eapply Forall_impl; [done|]. simpl. lia.
Qed.

End Lifecycle.

(** ** Broadcasting on small tensors *)

Example add_value_table_rows :
  add_value Z.add (mkTensor [2; 2; 2] [1; 2; 3; 4; 5; 6; 7; 8]%Z)
    (mkTensor [2; 2] [10; 20; 30; 40]%Z)
  = Ok (mkTensor [2; 2; 2] [11; 22; 33; 44; 15; 26; 37; 48]%Z).
Proof. reflexivity. Qed.

Example add_value_single_row :
  add_value Z.add (mkTensor [2; 2; 2] [1; 2; 3; 4; 5; 6; 7; 8]%Z)
    (mkTensor [1; 2] [10; 20]%Z)
  = Ok (mkTensor [2; 2; 2] [11; 22; 13; 24; 15; 26; 17; 28]%Z).
Proof. reflexivity. Qed.

Example add_value_short_self :
  add_value Z.add (mkTensor [1; 1; 2] [1; 2]%Z)
    (mkTensor [2; 2] [10; 20; 30; 40]%Z)
  = Raise BroadcastError.
Proof. reflexivity. Qed.

Example add_value_feature_mismatch :
  add_value Z.add (mkTensor [1; 2; 3] [1; 2; 3; 4; 5; 6]%Z)
    (mkTensor [2; 2] [10; 20; 30; 40]%Z)
  = Raise BroadcastError.
Proof. reflexivity. Qed.

(** ** The concrete encoder *)

Module FixtureFacts.
Import Fixture.

Lemma init_run d_model k x :
  init d_model k [x] = (Ok (encoder d_model), store d_model k x).
Proof. reflexivity. Qed.

Lemma shift_block_allocates d c : allocates_module (shift_block d c).
Proof.
  intros h b h'. unfold shift_block, bind, alloc, ret. intros [= <- <-].
  split; [by eexists|].
  apply Forall_cons_2; [|apply Forall_nil_2]. rewrite length_app. simpl. lia.
Qed.

Lemma encoder_inv d_model k x :
  Encoder_inv d_model k (encoder d_model) (store d_model k x).
Proof.
  split; [by eexists| done | done |].
  repeat (apply Forall_cons_2; [simpl; lia|]). apply Forall_nil_2.
Qed.

Lemma input_not_parameter d_model : 0 ∉ parameters (encoder d_model).
Proof.
  intros Hin. repeat (apply elem_of_cons in Hin as [Hin|Hin]; [done|]).
  by apply elem_of_nil in Hin.
Qed.

(** The sub-blocks of the concrete encoder accept every tensor of rank
    3 whose last dimension is [d_model], and keep its shape. *)
Lemma attention_accepts d_model k x B K :
  accepts (fun t => Attention (encoder d_model) (store d_model k x) t t t)
    [B; K; d_model].
Proof.
  intros [s d] Hs. simpl in Hs. subst s.
  unfold Attention, Block_value. simpl.
  apply add_value_Ok. simpl. apply infer_size_table. auto.
Qed.

Lemma feed_forward_accepts d_model k x B K :
  accepts (FeedForward (encoder d_model) (store d_model k x)) [B; K; d_model].
Proof.
  intros [s d] Hs. simpl in Hs. subst s.
  unfold FeedForward, Block_value. simpl.
  apply add_value_Ok. simpl. apply infer_size_table. auto.
Qed.

End FixtureFacts.

(** ** The claims on the concrete encoder *)

Section Concrete.
Import Fixture FixtureFacts.

(** Claim C1.  The forward pass on the input [[1, 2]] with d_model = 2
    and a table of one row returns Normalize2 (FeedForward (y1) + x'),
    the normalised sum of the feed-forward output and the encoded input
    x' = x + PE, and not Normalize2 (FeedForward (y1) + y1) as the
    specification asks: line 79 binds the name [redisual], line 81 adds
    [residual], which still refers to the encoded input. *)
Theorem forward_second_residual_slip :
  run_value 2 1 x1 = Ok (mkTensor [1; 1; 2] [1133; 1166]%Z)
  /\ spec_value 2 1 x1 = Ok (mkTensor [1; 1; 2] [1244; 1288]%Z)
  /\ run_value 2 1 x1 ≠ spec_value 2 1 x1.
Proof. split_and!; [reflexivity | reflexivity | discriminate]. Qed.

(** Claim C2 fails for K < k: an input with one position is rejected
    by an encoder whose table has two rows. *)
Lemma forward_shape_counterexample :
  shape x1 = [1; 1; 2] /\ 1 <= 2
  /\ Encoder_inv 2 2 (encoder 2) (store 2 2 x1)
  /\ ~ exists out h', forward (encoder 2) 0 (store 2 2 x1) = (Ok out, h').
Proof.
  split_and!; [done | lia | apply encoder_inv |].
  by intros (out & h' & [=]).
Qed.

Lemma forward_preserves_shape_witness :
  exists out h' y,
    forward (encoder 2) 0 (store 2 2 x2) = (Ok out, h')
    /\ h' !! out = Some y /\ shape y = [1; 2; 2].
Proof.
  apply (forward_preserves_shape Z.add affine_row 2 2 (encoder 2)
           (store 2 2 x2) 0 x2 1 2).
  - apply encoder_inv.
  - reflexivity.
  - apply input_not_parameter.
  - reflexivity.
  - left. reflexivity.
  - apply attention_accepts.
  - apply feed_forward_accepts.
Defined.

Lemma forward_first_sublayer_witness :
  exists x' a s y1 y2,
    add_value Z.add x1 (table 1 2) = Ok x'
    /\ Attention (encoder 2) (store 2 1 x1) x' x' x' = Ok a
    /\ add_value Z.add a x' = Ok s
    /\ Normalize1 affine_row (encoder 2) (store 2 1 x1) s = Ok y1
    /\ snd (forward (encoder 2) 0 (store 2 1 x1)) !! (length (store 2 1 x1) + 1)
       = Some y1
    /\ sublayer2 Z.add affine_row (encoder 2) (store 2 1 x1) x' y1 = Ok y2
    /\ snd (forward (encoder 2) 0 (store 2 1 x1)) !! 11 = Some y2.
Proof.
  apply (forward_first_sublayer Z.add affine_row (encoder 2) (store 2 1 x1)
           0 x1 (table 1 2) 11).
  - reflexivity.
  - reflexivity.
  - apply input_not_parameter.
  - apply (inv_params _ _ _ _ (encoder_inv 2 1 x1)).
  - reflexivity.
Defined.

Lemma forward_mutates_input_witness :
  exists x',
    add_value Z.add x1 (table 1 2) = Ok x'
    /\ snd (forward (encoder 2) 0 (store 2 1 x1)) !! 0 = Some x'
    /\ 0 < length (store 2 1 x1) <= 11.
Proof.
  apply (forward_mutates_input Z.add affine_row (encoder 2) (store 2 1 x1)
           0 x1 (table 1 2) 11); reflexivity.
Defined.

(** Claim C5 fails for k = 1: a table with a single row is broadcast
    over both positions of the input, and the forward pass returns. *)
Lemma forward_accepts_longer_sequence :
  shape x2 = [1; 2; 2] /\ 2 > 1
  /\ Encoder_inv 2 1 (encoder 2) (store 2 1 x2)
  /\ deref (forward (encoder 2) 0 (store 2 1 x2))
     = Ok (mkTensor [1; 2; 2] [1133; 1166; 1139; 1172]%Z).
Proof. split_and!; [done | lia | apply encoder_inv | reflexivity]. Qed.

Lemma forward_rejects_longer_sequence_witness :
  forward (encoder 2) 0 (store 2 0 x2) = (Raise BroadcastError, store 2 0 x2).
Proof.
  apply (forward_rejects_longer_sequence Z.add affine_row (encoder 2)
           (store 2 0 x2) 0 x2 (table 0 2) 1 2 2 0 2);
    [reflexivity | reflexivity | reflexivity | reflexivity | lia | lia].
Defined.

Lemma forward_rejects_shorter_sequence_witness :
  forward (encoder 2) 0 (store 2 2 x1) = (Raise BroadcastError, store 2 2 x1).
Proof.
  apply (forward_rejects_shorter_sequence Z.add affine_row (encoder 2)
           (store 2 2 x1) 0 x1 (table 2 2) 1 1 2 2 2);
    [reflexivity | reflexivity | reflexivity | reflexivity | lia | left; lia].
Defined.

(** Claim C6 fails for d_model = 1: the table of one column broadcasts
    onto an input with two features, so the caller's tensor is
    overwritten by line 70 and the exception comes from the
    normalisation of line 76 only. *)
Lemma forward_feature_mismatch_not_immediate :
  last (shape x2) ≠ Some 1
  /\ Encoder_inv 1 1 (encoder 1) (store 1 1 x2)
  /\ fst (forward (encoder 1) 0 (store 1 1 x2)) = Raise NormalizedShapeError
  /\ store 1 1 x2 !! 0 = Some (mkTensor [1; 2; 2] [1; 2; 3; 4]%Z)
  /\ snd (forward (encoder 1) 0 (store 1 1 x2)) !! 0
     = Some (mkTensor [1; 2; 2] [11; 12; 13; 14]%Z).
Proof.
  split_and!; [discriminate | apply encoder_inv | reflexivity..].
Qed.

Lemma forward_rejects_feature_mismatch_witness :
  exists e h',
    forward (encoder 2) 0 (store 2 1 x5) = (Raise e, h')
    /\ (2 ≠ 1 -> e = BroadcastError /\ h' = store 2 1 x5).
Proof.
  apply (forward_rejects_feature_mismatch Z.add affine_row 2 1 (encoder 2)
           (store 2 1 x5) 0 x5).
  - apply encoder_inv.
  - reflexivity.
  - apply input_not_parameter.
  - discriminate.
Defined.


End Concrete.

(** ** The element-wise loop on a batch *)

Section LoopFacts.

Context {R : Type} (add : R -> R -> R).
Implicit Types (sizes sstr ostr : list nat) (sd od : list R).

Lemma flat_map_seq_ext {B} (f g : nat -> list B) s n :
  (forall i, s <= i < s + n -> f i = g i) ->
  flat_map f (seq s n) = flat_map g (seq s n).
Proof.
  revert s. induction n as [|n IH]; intros s Hfg; [done|].
  simpl. rewrite Hfg by lia. f_equal. apply IH. intros i Hi. apply Hfg. lia.
Qed.

Lemma flat_map_seq_shift {B} (f : nat -> list B) s k n :
  flat_map f (seq (s + k) n) = flat_map (fun i => f (i + k)) (seq s n).
Proof.
  revert s. induction n as [|n IH]; intros s; [done|].
  simpl. f_equal. apply (IH (S s)).
Qed.

Lemma flat_map_seq_length {B} (f : nat -> list B) s n c :
  (forall i, s <= i < s + n -> length (f i) = c) ->
  length (flat_map f (seq s n)) = n * c.
Proof.
  revert s. induction n as [|n IH]; intros s Hf; [done|].
  simpl. rewrite length_app, Hf by lia. f_equal. apply IH.
  intros i Hi. apply Hf. lia.
Qed.

(** Contiguous strides stay inside a block of [numel sizes] scalars. *)
Lemma reads_within_contiguous sizes off len :
  off + numel sizes <= len ->
  reads_within sizes (contiguous_strides sizes) off len.
Proof.
  revert off. induction sizes as [|n sizes IH]; intros off Hlen; simpl in *.
  - lia.
  - intros i Hi. apply IH. nia.
Qed.

(** The loop produces one scalar per index when every read is inside the
    storage of its operand. *)
Lemma add_loop_length sizes sstr ostr sd od soff ooff :
  length sstr = length sizes -> length ostr = length sizes ->
  reads_within sizes sstr soff (length sd) ->
  reads_within sizes ostr ooff (length od) ->
  length (add_loop add sizes sstr ostr sd od soff ooff) = numel sizes.
Proof.
  revert sstr ostr soff ooff.
  induction sizes as [|n sizes IH]; intros sstr ostr soff ooff Hls Hlo Hs Ho.
  - simpl in *.
    destruct (lookup_lt_is_Some_2 sd soff Hs) as [a ->].
    by destruct (lookup_lt_is_Some_2 od ooff Ho) as [b ->].
  - destruct sstr as [|ss sstr]; [done|]. destruct ostr as [|os ostr]; [done|].
    simpl in *. apply flat_map_seq_length. intros i Hi.
    apply IH; [lia | lia | apply Hs; lia | apply Ho; lia].
Qed.

(** Reads of [self] that stay inside a prefix of its storage do not see
    what follows the prefix. *)
Lemma add_loop_self_prefix sizes sstr ostr sd post od soff ooff :
  reads_within sizes sstr soff (length sd) ->
  add_loop add sizes sstr ostr (sd ++ post) od soff ooff
  = add_loop add sizes sstr ostr sd od soff ooff.
Proof.
  revert sstr ostr soff ooff.
  induction sizes as [|n sizes IH]; intros sstr ostr soff ooff Hs.
  - simpl in *. by rewrite lookup_app_l.
  - destruct sstr as [|ss sstr]; [done|]. destruct ostr as [|os ostr]; [done|].
    simpl in *. apply flat_map_seq_ext. intros i Hi. apply IH, Hs. lia.
Qed.

Lemma add_loop_other_prefix sizes sstr ostr sd od post soff ooff :
  reads_within sizes ostr ooff (length od) ->
  add_loop add sizes sstr ostr sd (od ++ post) soff ooff
  = add_loop add sizes sstr ostr sd od soff ooff.
Proof.
  revert sstr ostr soff ooff.
  induction sizes as [|n sizes IH]; intros sstr ostr soff ooff Ho.
  - simpl in *. by rewrite (lookup_app_l od).
  - destruct sstr as [|ss sstr]; [done|]. destruct ostr as [|os ostr]; [done|].
    simpl in *. apply flat_map_seq_ext. intros i Hi. apply IH, Ho. lia.
Qed.

(** Reads that start after a prefix of the storage do not see it. *)
Lemma add_loop_self_shift sizes sstr ostr pre sd od soff ooff :
  add_loop add sizes sstr ostr (pre ++ sd) od (length pre + soff) ooff
  = add_loop add sizes sstr ostr sd od soff ooff.
Proof.
  revert sstr ostr soff ooff.
  induction sizes as [|n sizes IH]; intros sstr ostr soff ooff.
  - simpl. rewrite lookup_app_r by lia.
    by replace (length pre + soff - length pre) with soff by lia.
  - destruct sstr as [|ss sstr]; [done|]. destruct ostr as [|os ostr]; [done|].
    simpl. apply flat_map_seq_ext. intros i Hi.
    rewrite <- Nat.add_assoc. apply IH.
Qed.

Lemma add_loop_other_shift sizes sstr ostr sd pre od soff ooff :
  add_loop add sizes sstr ostr sd (pre ++ od) soff (length pre + ooff)
  = add_loop add sizes sstr ostr sd od soff ooff.
Proof.
  revert sstr ostr soff ooff.
  induction sizes as [|n sizes IH]; intros sstr ostr soff ooff.
  - simpl. rewrite (lookup_app_r pre) by lia.
    by replace (length pre + ooff - length pre) with ooff by lia.
  - destruct sstr as [|ss sstr]; [done|]. destruct ostr as [|os ostr]; [done|].
    simpl. apply flat_map_seq_ext. intros i Hi.
    rewrite <- (Nat.add_assoc (length pre)). apply IH.
Qed.

End LoopFacts.

(** ** In-place addition on a batch of two *)

Section BatchAdd.

Context {R : Type} (add : R -> R -> R).
Implicit Types (t a b pe : Tensor R).

Lemma expand_strides_table (B K d k d' : nat) :
  expand_strides [B; K; d] [k; d'] = 0 :: expand_strides [K; d] [k; d'].
Proof. reflexivity. Qed.

Lemma expand_strides_same (B K d : nat) :
  expand_strides [B; K; d] [B; K; d] = contiguous_strides [B; K; d].
Proof.
  unfold expand_strides. cbn. by rewrite !Nat.eqb_refl.
Qed.

(** The operand has no batch dimension: both elements of the batch read
    it from the start. *)
Lemma add_loop_batch_table sizes ostr (sd1 sd2 od : list R) :
  length sd1 = numel sizes ->
  add_loop add (2 :: sizes) (numel sizes :: contiguous_strides sizes)
    (0 :: ostr) (sd1 ++ sd2) od 0 0
  = add_loop add (1 :: sizes) (numel sizes :: contiguous_strides sizes)
      (0 :: ostr) sd1 od 0 0
    ++ add_loop add (1 :: sizes) (numel sizes :: contiguous_strides sizes)
         (0 :: ostr) sd2 od 0 0.
Proof.
  intros Hlen. simpl. rewrite !app_nil_r. f_equal.
  - apply add_loop_self_prefix, reads_within_contiguous. lia.
  - rewrite <- Hlen. apply add_loop_self_shift.
Qed.

(** The operand is a batch of the same shape: each element of the batch
    reads its own element of the operand. *)
Lemma add_loop_batch_same sizes (sd1 sd2 od1 od2 : list R) :
  length sd1 = numel sizes -> length od1 = numel sizes ->
  add_loop add (2 :: sizes) (numel sizes :: contiguous_strides sizes)
    (numel sizes :: contiguous_strides sizes) (sd1 ++ sd2) (od1 ++ od2) 0 0
  = add_loop add (1 :: sizes) (numel sizes :: contiguous_strides sizes)
      (numel sizes :: contiguous_strides sizes) sd1 od1 0 0
    ++ add_loop add (1 :: sizes) (numel sizes :: contiguous_strides sizes)
         (numel sizes :: contiguous_strides sizes) sd2 od2 0 0.
Proof.
  intros Hs Ho. simpl. rewrite !app_nil_r. f_equal.
  - rewrite add_loop_self_prefix by (apply reads_within_contiguous; lia).
    apply add_loop_other_prefix, reads_within_contiguous. lia.
  - transitivity
      (add_loop add sizes (contiguous_strides sizes) (contiguous_strides sizes)
         (sd1 ++ sd2) (od1 ++ od2) (length sd1 + 0) (length od1 + 0));
      [by rewrite Hs, Ho|].
    rewrite add_loop_self_shift. apply add_loop_other_shift.
Qed.

Lemma wf_batch_element t (K d : nat) :
  shape t = [1; K; d] -> wf t -> length (data t) = numel [K; d].
Proof. unfold wf. intros ->. simpl. lia. Qed.

Lemma add_value_cat0_table a b pe (K d k d' : nat) a' b' :
  shape a = [1; K; d] -> shape b = [1; K; d] -> wf a -> shape pe = [k; d'] ->
  add_value add a pe = Ok a' -> add_value add b pe = Ok b' ->
  add_value add (cat0 a b) pe = Ok (cat0 a' b').
Proof.
  intros Hsa Hsb Hwa Hspe Ha Hb.
  pose proof (wf_batch_element a K d Hsa Hwa) as Hla.
  destruct (add_value_Ok_inv add _ _ _ Ha) as [Hbc _].
  apply add_value_Ok_data in Ha as ->. apply add_value_Ok_data in Hb as ->.
  unfold add_value, cat0. cbn [shape data]. rewrite Hsa, Hsb, Hspe in *.
  cbn [shape data].
  case_decide as Hbc2;
    [|destruct Hbc2; apply infer_size_table; by apply infer_size_table in Hbc].
  do 2 f_equal. rewrite !expand_strides_table.
  by apply (add_loop_batch_table [K; d]).
Qed.

Lemma add_value_cat0_same a b c e (K d : nat) s1 s2 :
  shape a = [1; K; d] -> shape b = [1; K; d] ->
  shape c = [1; K; d] -> shape e = [1; K; d] ->
  wf a -> wf c ->
  add_value add a c = Ok s1 -> add_value add b e = Ok s2 ->
  add_value add (cat0 a b) (cat0 c e) = Ok (cat0 s1 s2).
Proof.
  intros Hsa Hsb Hsc Hse Hwa Hwc Ha Hb.
  pose proof (wf_batch_element a K d Hsa Hwa) as Hla.
  pose proof (wf_batch_element c K d Hsc Hwc) as Hlc.
  apply add_value_Ok_data in Ha as ->. apply add_value_Ok_data in Hb as ->.
  unfold add_value, cat0. cbn [shape data]. rewrite Hsa, Hsb, Hsc, Hse.
  cbn [shape data].
  case_decide as Hbc; [|destruct Hbc; apply infer_size_refl].
  do 2 f_equal. rewrite !expand_strides_same.
  by apply (add_loop_batch_same [K; d]).
Qed.

(** The sum is well formed when both operands are. *)
Lemma wf_add_value_table t pe (B K d k d' : nat) y :
  shape t = [B; K; d] -> shape pe = [k; d'] -> wf t -> wf pe ->
  add_value add t pe = Ok y -> wf y.
Proof.
  intros Hst Hspe Hwt Hwpe Hy. unfold wf in *.
  destruct (add_value_Ok_inv add _ _ _ Hy) as [Hbc _].
  apply add_value_Ok_data in Hy as ->.
  rewrite Hst, Hspe in *. cbn [shape data]. apply infer_size_table in Hbc.
  apply add_loop_length; [done | done | |].
  - apply reads_within_contiguous. lia.
  - unfold expand_strides. cbn. intros i Hi j Hj l Hl.
    rewrite Hwpe. simpl.
    destruct (Nat.eqb_spec d' d), (Nat.eqb_spec k K); nia.
Qed.

Lemma wf_add_value_same a c (B K d : nat) y :
  shape a = [B; K; d] -> shape c = [B; K; d] -> wf a -> wf c ->
  add_value add a c = Ok y -> wf y.
Proof.
  intros Hsa Hsc Hwa Hwc Hy. unfold wf in *.
  apply add_value_Ok_data in Hy as ->.
  rewrite Hsa, Hsc in *. cbn [shape data].
  rewrite expand_strides_same.
  apply add_loop_length; [done | done | |];
    apply reads_within_contiguous; lia.
Qed.

(** Adding a fixed table of rank 2 keeps the shape of a batch and treats
    its elements independently. *)
Lemma add_table_shape_preserving pe (B K d k d' : nat) :
  shape pe = [k; d'] -> wf pe ->
  shape_preserving (fun t => add_value add t pe) [B; K; d].
Proof.
  intros Hspe Hwpe t y Hst Hwt Hy. split.
  - by rewrite (proj2 (add_value_Ok_inv add _ _ _ Hy)).
  - apply (wf_add_value_table t pe B K d k d' y Hst Hspe Hwt Hwpe Hy).
Qed.

Lemma add_table_batch_independent pe (K d k d' : nat) :
  shape pe = [k; d'] ->
  batch_independent (fun t => add_value add t pe) [K; d].
Proof.
  intros Hspe a b ya yb Hsa Hsb Hwa Hwb Ha Hb.
  by apply (add_value_cat0_table a b pe K d k d').
Qed.

End BatchAdd.

(** ** Normalisation on a batch of two *)

Section BatchNorm.

Context {R : Type}.
Context (normalize_row : list R -> list R -> list R -> list R).
Implicit Types (t w b : Tensor R) (h : heap R) (m : LayerNorm).

(** The normalisation of a vector has as many scalars as the vector. *)
Hypothesis normalize_row_length :
  forall (weight bias row : list R),
    length (normalize_row weight bias row) = length row.

Lemma layer_norm_Ok_data n w b t y :
  layer_norm normalize_row n w b t = Ok y ->
  y = mkTensor (shape t)
        (flat_map (fun i => normalize_row (data w) (data b)
                              (take n (drop (i * n) (data t))))
                  (seq 0 (numel (removelast (shape t))))).
Proof. unfold layer_norm. case_decide; [|done]. by intros [= <-]. Qed.

(** Rows are cut out of the storage one after the other, so the rows of
    two storages laid end to end are the rows of the first followed by
    the rows of the second. *)
Lemma rows_app {B} (row : list R -> list B) n (d1 d2 : list R) r1 r2 :
  length d1 = r1 * n ->
  flat_map (fun i => row (take n (drop (i * n) (d1 ++ d2)))) (seq 0 (r1 + r2))
  = flat_map (fun i => row (take n (drop (i * n) d1))) (seq 0 r1)
    ++ flat_map (fun i => row (take n (drop (i * n) d2))) (seq 0 r2).
Proof.
  intros Hlen. rewrite seq_app, flat_map_app. f_equal.
  - apply flat_map_seq_ext. intros i Hi. f_equal.
    rewrite drop_app_le by nia. apply take_app_le. rewrite length_drop. nia.
  - rewrite (flat_map_seq_shift _ 0 r1). apply flat_map_seq_ext.
    intros i Hi. do 2 f_equal.
    replace ((i + r1) * n) with (length d1 + i * n) by lia.
    apply drop_app_add.
Qed.

Lemma layer_norm_cat0 n w b t1 t2 (K : nat) y1 y2 :
  shape t1 = [1; K; n] -> shape t2 = [1; K; n] -> wf t1 ->
  layer_norm normalize_row n w b t1 = Ok y1 ->
  layer_norm normalize_row n w b t2 = Ok y2 ->
  layer_norm normalize_row n w b (cat0 t1 t2) = Ok (cat0 y1 y2).
Proof.
  intros Hs1 Hs2 Hw1 H1 H2. unfold wf in Hw1.
  apply layer_norm_Ok_data in H1 as ->. apply layer_norm_Ok_data in H2 as ->.
  unfold layer_norm, cat0. rewrite Hs1, Hs2 in *. cbn [shape data].
  case_decide as Hlast; [|by destruct Hlast].
  do 2 f_equal.
  replace (numel (removelast [1 + 1; K; n]))
    with (numel (removelast [1; K; n]) + numel (removelast [1; K; n]))
    by (simpl; lia).
  apply rows_app. simpl in *. lia.
Qed.

Lemma wf_layer_norm n w b t (B K : nat) y :
  shape t = [B; K; n] -> wf t ->
  layer_norm normalize_row n w b t = Ok y -> wf y.
Proof using normalize_row_length.
  intros Hs Hw Hy. unfold wf in *.
  apply layer_norm_Ok_data in Hy as ->. rewrite Hs in *. cbn [shape data].
  rewrite (flat_map_seq_length _ 0 _ n); [simpl; lia|].
  intros i Hi. rewrite normalize_row_length, length_take, length_drop.
  simpl in *. nia.
Qed.

Lemma LayerNorm_value_cat0 m h t1 t2 (K d : nat) y1 y2 :
  shape t1 = [1; K; d] -> shape t2 = [1; K; d] -> wf t1 ->
  LayerNorm_value normalize_row m h t1 = Ok y1 ->
  LayerNorm_value normalize_row m h t2 = Ok y2 ->
  LayerNorm_value normalize_row m h (cat0 t1 t2) = Ok (cat0 y1 y2).
Proof.
  intros Hs1 Hs2 Hw1. unfold LayerNorm_value.
  destruct (lookup_all h _) as [[|w [|b [|]]]|]; simpl; try done.
  intros H1 H2.
  destruct (layer_norm_Ok_inv _ _ _ _ _ _ H1) as [Hlast _].
  rewrite Hs1 in Hlast. injection Hlast as Hd. rewrite <- Hd in *.
  by apply (layer_norm_cat0 _ _ _ _ _ K).
Qed.

Lemma wf_LayerNorm_value m h t (B K d : nat) y :
  shape t = [B; K; d] -> wf t ->
  LayerNorm_value normalize_row m h t = Ok y ->
  shape y = [B; K; d] /\ wf y.
Proof using normalize_row_length.
  intros Hs Hw Hy.
  destruct (LayerNorm_value_Ok_inv _ _ _ _ _ Hy) as [Hlast Hsy].
  split; [by rewrite Hsy|].
  unfold LayerNorm_value in Hy.
  destruct (lookup_all h _) as [[|w [|b [|]]]|]; simpl in Hy; try done.
  rewrite Hs in Hlast. injection Hlast as Hd.
  rewrite <- Hd in Hy. by apply (wf_layer_norm _ _ _ _ B K) in Hy.
Qed.

End BatchNorm.

(** ** Batch independence *)

Section BatchClaim.

Context {R : Type} (add : R -> R -> R).
Context (normalize_row : list R -> list R -> list R -> list R).
Implicit Types (t : Tensor R) (h : heap R) (self : Encoder R).

Hypothesis normalize_row_length :
  forall (weight bias row : list R),
    length (normalize_row weight bias row) = length row.

Lemma result_bind_Ok {A B} (r : result A) (f : A -> result B) y :
  result_bind r f = Ok y -> exists a, r = Ok a /\ f a = Ok y.
Proof. destruct r as [a|]; [|done]. by exists a. Qed.

(** The value of the forward pass on a batch of two inputs is the batch
    of the values on each input. *)
Lemma forward_value_batch self h tpe t1 t2 (K d k d' : nat) y1 y2 :
  shape t1 = [1; K; d] -> shape t2 = [1; K; d] -> wf t1 -> wf t2 ->
  shape tpe = [k; d'] -> wf tpe ->
  shape_preserving (fun t => Attention self h t t t) [1; K; d] ->
  batch_independent (fun t => Attention self h t t t) [K; d] ->
  shape_preserving (FeedForward self h) [1; K; d] ->
  batch_independent (FeedForward self h) [K; d] ->
  forward_value add normalize_row self h t1 tpe = Ok y1 ->
  forward_value add normalize_row self h t2 tpe = Ok y2 ->
  forward_value add normalize_row self h (cat0 t1 t2) tpe = Ok (cat0 y1 y2).
Proof using normalize_row_length.
  intros Hs1 Hs2 Hw1 Hw2 Hspe Hwpe Hasp Habi Hfsp Hfbi H1 H2.
  unfold forward_value, sublayer1, sublayer2 in *.
  (* the first element alone *)
  apply result_bind_Ok in H1 as (x1' & Ex1 & H1).
  apply result_bind_Ok in H1 as (n1 & H1 & G1).
  apply result_bind_Ok in H1 as (a1 & Ea1 & H1).
  apply result_bind_Ok in H1 as (s1 & Es1 & En1).
  apply result_bind_Ok in G1 as (f1 & Ef1 & G1).
  apply result_bind_Ok in G1 as (u1 & Eu1 & Ez1).
  (* the second element alone *)
  apply result_bind_Ok in H2 as (x2' & Ex2 & H2).
  apply result_bind_Ok in H2 as (n2 & H2 & G2).
  apply result_bind_Ok in H2 as (a2 & Ea2 & H2).
  apply result_bind_Ok in H2 as (s2 & Es2 & En2).
  apply result_bind_Ok in G2 as (f2 & Ef2 & G2).
  apply result_bind_Ok in G2 as (u2 & Eu2 & Ez2).
  (* shapes and well-formedness along both runs *)
  assert (shape x1' = [1; K; d] /\ wf x1') as [Hsx1 Hwx1].
  { split; [by rewrite (proj2 (add_value_Ok_inv _ _ _ _ Ex1))|].
    apply (wf_add_value_table add t1 tpe 1 K d k d' x1' Hs1 Hspe Hw1 Hwpe Ex1). }
  assert (shape x2' = [1; K; d] /\ wf x2') as [Hsx2 Hwx2].
  { split; [by rewrite (proj2 (add_value_Ok_inv _ _ _ _ Ex2))|].
    apply (wf_add_value_table add t2 tpe 1 K d k d' x2' Hs2 Hspe Hw2 Hwpe Ex2). }
  destruct (Hasp x1' a1 Hsx1 Hwx1 Ea1) as [Hsa1 Hwa1].
  destruct (Hasp x2' a2 Hsx2 Hwx2 Ea2) as [Hsa2 Hwa2].
  assert (shape s1 = [1; K; d] /\ wf s1) as [Hss1 Hws1].
  { split; [by rewrite (proj2 (add_value_Ok_inv _ _ _ _ Es1))|].
    apply (wf_add_value_same add a1 x1' 1 K d s1 Hsa1 Hsx1 Hwa1 Hwx1 Es1). }
  assert (shape s2 = [1; K; d] /\ wf s2) as [Hss2 Hws2].
  { split; [by rewrite (proj2 (add_value_Ok_inv _ _ _ _ Es2))|].
    apply (wf_add_value_same add a2 x2' 1 K d s2 Hsa2 Hsx2 Hwa2 Hwx2 Es2). }
  destruct (wf_LayerNorm_value normalize_row normalize_row_length
              _ _ _ 1 K d _ Hss1 Hws1 En1) as [Hsn1 Hwn1].
  destruct (wf_LayerNorm_value normalize_row normalize_row_length
              _ _ _ 1 K d _ Hss2 Hws2 En2) as [Hsn2 Hwn2].
  destruct (Hfsp n1 f1 Hsn1 Hwn1 Ef1) as [Hsf1 Hwf1].
  destruct (Hfsp n2 f2 Hsn2 Hwn2 Ef2) as [Hsf2 Hwf2].
  assert (shape u1 = [1; K; d] /\ wf u1) as [Hsu1 Hwu1].
  { split; [by rewrite (proj2 (add_value_Ok_inv _ _ _ _ Eu1))|].
    apply (wf_add_value_same add f1 x1' 1 K d u1 Hsf1 Hsx1 Hwf1 Hwx1 Eu1). }
  assert (shape u2 = [1; K; d]) as Hsu2
    by (by rewrite (proj2 (add_value_Ok_inv _ _ _ _ Eu2))).
  (* the batch *)
  rewrite (add_value_cat0_table add t1 t2 tpe K d k d' x1' x2') by done.
  simpl. rewrite (Habi x1' x2' a1 a2) by done.
  simpl. rewrite (add_value_cat0_same add a1 a2 x1' x2' K d s1 s2) by done.
  simpl. unfold Normalize1 in *.
  rewrite (LayerNorm_value_cat0 normalize_row _ h s1 s2 K d n1 n2) by done.
  simpl. rewrite (Hfbi n1 n2 f1 f2) by done.
  simpl. rewrite (add_value_cat0_same add f1 f2 x1' x2' K d u1 u2) by done.
  simpl. unfold Normalize2 in *.
  by apply (LayerNorm_value_cat0 normalize_row _ h u1 u2 K d).
Qed.

(** Claim C9.  For two inputs of shape (1, K, d) and attention and
    feed-forward sub-blocks that keep that shape and treat the elements
    of a batch independently, the forward pass on the batch of the two
    inputs returns the batch of the tensors it returns on each input
    alone.  Scalars are combined by the same operations in the same
    order, so the results are equal and not just close. *)
Theorem forward_batch_independent self h tpe (K d k d' : nat)
    (l1 l2 l12 : loc) t1 t2 y1 y2 :
  h !! l1 = Some t1 -> h !! l2 = Some t2 -> h !! l12 = Some (cat0 t1 t2) ->
  h !! _PE self = Some tpe ->
  Forall (fun p => p < length h) (parameters self) ->
  l1 ∉ parameters self -> l2 ∉ parameters self -> l12 ∉ parameters self ->
  shape t1 = [1; K; d] -> shape t2 = [1; K; d] -> wf t1 -> wf t2 ->
  shape tpe = [k; d'] -> wf tpe ->
  shape_preserving (fun t => Attention self h t t t) [1; K; d] ->
  batch_independent (fun t => Attention self h t t t) [K; d] ->
  shape_preserving (FeedForward self h) [1; K; d] ->
  batch_independent (FeedForward self h) [K; d] ->
  deref (forward add normalize_row self l1 h) = Ok y1 ->
  deref (forward add normalize_row self l2 h) = Ok y2 ->
  deref (forward add normalize_row self l12 h) = Ok (cat0 y1 y2).
Proof using normalize_row_length.
  intros Hl1 Hl2 Hl12 Hpe Hv Hn1 Hn2 Hn12 Hs1 Hs2 Hw1 Hw2 Hspe Hwpe
    Hasp Habi Hfsp Hfbi.
  rewrite Forall_forall in Hv.
  rewrite (forward_deref add normalize_row self h l1 t1 tpe) by done.
  rewrite (forward_deref add normalize_row self h l2 t2 tpe) by done.
  rewrite (forward_deref add normalize_row self h l12 (cat0 t1 t2) tpe) by done.
  by apply (forward_value_batch self h tpe t1 t2 K d k d').
Qed.

End BatchClaim.

(** ** Batch independence on the concrete encoder *)

Section ConcreteBatch.
Import Fixture FixtureFacts.

Lemma affine_row_length (weight bias row : list Z) :
  length (affine_row weight bias row) = length row.
Proof. apply length_imap. Qed.

Lemma fresh_not_parameter d_model (l : loc) :
  6 < l -> l ∉ parameters (encoder d_model).
Proof.
  intros Hl Hin. cbv in Hin.
  repeat (apply elem_of_cons in Hin as [->|Hin]; [lia|]).
  by apply elem_of_nil in Hin.
Qed.

Lemma forward_batch_independent_witness :
  deref (forward (encoder 2) 9 batch_store)
  = Ok (cat0 (mkTensor [1; 2; 2] [1133; 1166; 1199; 1232]%Z)
             (mkTensor [1; 2; 2] [1145; 1178; 1211; 1244]%Z)).
Proof.
  apply (forward_batch_independent Z.add affine_row affine_row_length
           (encoder 2) batch_store (table 2 2) 2 2 2 2 0 8 9 x2 x3).
  - reflexivity.
  - reflexivity.
  - reflexivity.
  - reflexivity.
  - repeat (apply Forall_cons_2; [simpl; lia|]). apply Forall_nil_2.
  - apply input_not_parameter.
  - apply fresh_not_parameter. lia.
  - apply fresh_not_parameter. lia.
  - reflexivity.
  - reflexivity.
  - reflexivity.
  - reflexivity.
  - reflexivity.
  - reflexivity.
  - apply (add_table_shape_preserving Z.add
             (mkTensor [1; 2] (replicate 2 100%Z)) 1 2 2 1 2); reflexivity.
  - apply (add_table_batch_independent Z.add
             (mkTensor [1; 2] (replicate 2 100%Z)) 2 2 1 2); reflexivity.
  - apply (add_table_shape_preserving Z.add
             (mkTensor [1; 2] (replicate 2 1000%Z)) 1 2 2 1 2); reflexivity.
  - apply (add_table_batch_independent Z.add
             (mkTensor [1; 2] (replicate 2 1000%Z)) 2 2 1 2); reflexivity.
  - reflexivity.
  - reflexivity.
Defined.

End ConcreteBatch.

(** * Further properties of the forward pass and of the constructor *)

(** ** Effects of one call and of several calls *)

Section ForwardEffects.

Context {R : Type} (add : R -> R -> R).
Context (normalize_row : list R -> list R -> list R -> list R).
Implicit Types (h : heap R) (t : Tensor R) (self : Encoder R).

(** The value of the forward pass reads the store at the parameters of
    the layer only. *)
Lemma forward_value_agree self h h' tx tpe :
  (forall p, p ∈ parameters self -> h' !! p = h !! p) ->
  forward_value add normalize_row self h' tx tpe
  = forward_value add normalize_row self h tx tpe.
Proof.
  intros Hag.
  destruct (Encoder_parameters_sub self) as (Hsa & Hff & Hl1 & Hl2).
  unfold forward_value, sublayer1, sublayer2,
    Attention, FeedForward, Normalize1, Normalize2.
  destruct (add_value add tx tpe) as [x'|]; [simpl|done].
  rewrite (Block_value_agree _ h h') by (intros; apply Hag; auto).
  destruct (Block_value _ h _) as [a|]; [simpl|done].
  destruct (add_value add a x') as [s1|]; [simpl|done].
  rewrite (LayerNorm_value_agree _ _ h h') by (intros; apply Hag; auto).
  destruct (LayerNorm_value _ _ h _) as [y1|]; [simpl|done].
  rewrite (Block_value_agree _ h h') by (intros; apply Hag; auto).
  destruct (Block_value _ h _) as [f|]; [simpl|done].
  destruct (add_value add f x') as [s2|]; [simpl|done].
  by rewrite (LayerNorm_value_agree _ _ h h') by (intros; apply Hag; auto).
Qed.

(** Once line 70 has stored the encoded input in the caller's tensor, no
    later statement writes to it, whatever the outcome. *)
Lemma forward_input_written self h x tx tpe x' :
  h !! x = Some tx ->
  h !! _PE self = Some tpe ->
  add_value add tx tpe = Ok x' ->
  snd (forward add normalize_row self x h) !! x = Some x'.
Proof.
  intros Hx Hpe Hadd.
  pose proof (lookup_lt_Some _ _ _ Hx) as Hlt.
  unfold forward. unfold bind at 1.
  rewrite (add__run add h x _ tx tpe Hx Hpe), Hadd.
  match goal with
  | |- snd (?rest _) !! _ = _ =>
      assert (writes_only (length h) (length h) (fun l => length h <= l) rest) as Hw
  end.
  { eapply writes_only_bind; [apply writes_only_Block_call|intros a Ha].
    eapply writes_only_bind; [apply writes_only_add_; by right|intros _ _].
    eapply writes_only_bind; [apply writes_only_LayerNorm_call|intros y1 Hy1].
    eapply writes_only_bind; [apply writes_only_Block_call|intros f Hf].
    eapply writes_only_bind; [apply writes_only_add_; by right|intros _ _].
    eapply writes_only_bind; [apply writes_only_LayerNorm_call|intros y2 Hy2].
    eapply writes_only_weaken; [|apply writes_only_ret]. by intros ? ->. }
  destruct (Hw (<[x := x']> h)) as [[_ Hfr] _]; [by rewrite length_insert|].
  rewrite Hfr by lia. by apply list_lookup_insert_eq.
Qed.

(** The store after a forward pass agrees with the store before it on
    the parameters of the layer and on its table, when the argument is
    none of them. *)
Lemma forward_state_kept self h x :
  x ∉ parameters self ->
  (forall p, p ∈ parameters self -> p < length h) ->
  forall p, p ∈ parameters self ->
    snd (forward add normalize_row self x h) !! p = h !! p.
Proof.
  intros Hnp Hv p Hp.
  destruct (forward_frame add normalize_row self x h) as [_ Hfr].
  apply Hfr; [by apply Hv|]. intros ->. by apply Hnp.
Qed.

(** An exception raised after line 70 leaves the caller's tensor
    modified: it holds x + PE although the call has failed. *)
Theorem forward_raise_after_injection self h x tx tpe x' e h' :
  h !! x = Some tx ->
  h !! _PE self = Some tpe ->
  add_value add tx tpe = Ok x' ->
  forward add normalize_row self x h = (Raise e, h') ->
  h' !! x = Some x'.
Proof.
  intros Hx Hpe Hadd Hrun.
  pose proof (forward_input_written self h x tx tpe x' Hx Hpe Hadd) as Hw.
  by rewrite Hrun in Hw.
Qed.

(** The forward pass applied to the table object itself adds the table
    to itself in place: afterwards, whatever the outcome, the table of
    the layer holds PE + PE. *)
Theorem forward_on_table_doubles_it self h tpe :
  h !! _PE self = Some tpe ->
  exists t2,
    add_value add tpe tpe = Ok t2
    /\ snd (forward add normalize_row self (_PE self) h) !! _PE self = Some t2.
Proof.
  intros Hpe.
  destruct (add_value_Ok add tpe tpe) as (t2 & Hadd & _);
    [apply infer_size_refl|].
  exists t2. split; [done|].
  by apply (forward_input_written self h (_PE self) tpe tpe t2).
Qed.

(** The forward pass does not change a parameter of the layer, whether
    it returns or raises, when its argument shares no storage with a
    parameter (in the store: is another cell than each of them). *)
Theorem forward_keeps_parameters self h x :
  x ∉ parameters self ->
  Forall (fun p => p < length h) (parameters self) ->
  Forall (fun p => snd (forward add normalize_row self x h) !! p = h !! p)
         (parameters self).
Proof.
  intros Hnp Hv. rewrite Forall_forall in Hv. apply Forall_forall.
  by apply forward_state_kept.
Qed.

(** A call leaves nothing behind that a later call could see, as long
    as the tensor of the first call shares no storage with the tensor of
    the second, with the table or with a parameter (in the store: is
    another cell than each of them): after a forward pass on [x1],
    returning or not, the forward pass on [x2] has the outcome it would
    have had without the first call. *)
Theorem forward_after_forward self h x1 x2 t2 tpe :
  h !! x2 = Some t2 ->
  h !! _PE self = Some tpe ->
  x1 ≠ x2 -> x1 ≠ _PE self ->
  x1 ∉ parameters self -> x2 ∉ parameters self ->
  Forall (fun p => p < length h) (parameters self) ->
  deref (forward add normalize_row self x2
           (snd (forward add normalize_row self x1 h)))
  = deref (forward add normalize_row self x2 h).
Proof.
  intros Hx2 Hpe Hne Hnpe Hn1 Hn2 Hv. rewrite Forall_forall in Hv.
  destruct (forward_frame add normalize_row self x1 h) as [Hlen Hfr].
  set (h' := snd (forward add normalize_row self x1 h)) in *.
  rewrite (forward_deref add normalize_row self h' x2 t2 tpe).
  - rewrite (forward_deref add normalize_row self h x2 t2 tpe) by done.
    apply forward_value_agree. intros p Hp.
    by apply forward_state_kept.
  - rewrite Hfr; [done| by eapply lookup_lt_Some |done].
  - rewrite Hfr; [done| by eapply lookup_lt_Some |done].
  - done.
  - intros p Hp. specialize (Hv p Hp). lia.
Qed.

(** Calling the forward pass twice on the same tensor object is not
    calling it twice on the same value: the second call starts from the
    encoded input x + PE the first call left in the object, and adds the
    table again. *)
Theorem forward_twice_same_object self h x tx tpe x' :
  h !! x = Some tx ->
  h !! _PE self = Some tpe ->
  add_value add tx tpe = Ok x' ->
  x ≠ _PE self ->
  x ∉ parameters self ->
  Forall (fun p => p < length h) (parameters self) ->
  deref (forward add normalize_row self x
           (snd (forward add normalize_row self x h)))
  = forward_value add normalize_row self h x' tpe.
Proof.
  intros Hx Hpe Hadd Hnpe Hnp Hv. rewrite Forall_forall in Hv.
  destruct (forward_frame add normalize_row self x h) as [Hlen Hfr].
  pose proof (forward_input_written self h x tx tpe x' Hx Hpe Hadd) as Hw.
  set (h' := snd (forward add normalize_row self x h)) in *.
  rewrite (forward_deref add normalize_row self h' x x' tpe).
  - apply forward_value_agree. intros p Hp. by apply forward_state_kept.
  - done.
  - rewrite Hfr; [done| by eapply lookup_lt_Some |done].
  - done.
  - intros p Hp. specialize (Hv p Hp). lia.
Qed.

End ForwardEffects.

(** ** Stacked encoders and the tensor that is returned *)

Section ForwardStack.

Context {R : Type} (add : R -> R -> R).
Context (normalize_row : list R -> list R -> list R -> list R).
Implicit Types (h : heap R) (t : Tensor R) (self : Encoder R).

(** The store a returning forward pass leaves, with the tensor it
    returns. *)
Lemma forward_returns self h x tx tpe out h' :
  h !! x = Some tx ->
  h !! _PE self = Some tpe ->
  x ∉ parameters self ->
  (forall p, p ∈ parameters self -> p < length h) ->
  forward add normalize_row self x h = (Ok out, h') ->
  exists x' ext y,
    h' = <[x := x']> h ++ ext
    /\ out = length h + 3
    /\ h' !! out = Some y
    /\ forward_value add normalize_row self h tx tpe = Ok y.
Proof.
  intros Hx Hpe Hnp Hv Hrun.
  pose proof (forward_deref add normalize_row self h x tx tpe Hx Hpe Hnp Hv) as Hd.
  rewrite (forward_run add normalize_row self h x tx tpe Hx Hpe Hnp Hv) in Hrun, Hd.
  unfold forward_outcome in Hrun, Hd.
  destruct (add_value add tx tpe) as [x'|]; [|done].
  destruct (Attention _ _ _ _ _) as [a|]; [|done].
  destruct (add_value add a x') as [s1|]; [|done].
  destruct (Normalize1 _ _ _ _) as [y1|]; [|done].
  destruct (FeedForward _ _ _) as [f|]; [|done].
  destruct (add_value add f x') as [s2|]; [|done].
  destruct (Normalize2 _ _ _ _) as [y2|] eqn:Ey2; [|done].
  injection Hrun as <- <-. exists x', [s1; y1; s2; y2], y2.
  assert ((<[x := x']> h ++ [s1; y1; s2; y2]) !! (length h + 3) = Some y2) as Hout
    by (apply (store_new h x x' [s1; y1; s2] y2 []); simpl; lia).
  split_and!; try done.
  simpl in Hd. by rewrite Hout in Hd.
Qed.

(** Two encoders applied one after the other compose on values: the
    second call modifies the tensor the first one returned, which is a
    new object, so it reads the value the first layer computed and
    the parameters and table of the second layer only. *)
Theorem forward_stack (enc1 enc2 : Encoder R) h x tx pe1 pe2 out h1 :
  h !! x = Some tx ->
  h !! _PE enc1 = Some pe1 ->
  h !! _PE enc2 = Some pe2 ->
  x ∉ parameters enc1 -> x ∉ parameters enc2 -> x ≠ _PE enc2 ->
  Forall (fun p => p < length h) (parameters enc1) ->
  Forall (fun p => p < length h) (parameters enc2) ->
  forward add normalize_row enc1 x h = (Ok out, h1) ->
  exists y1,
    forward_value add normalize_row enc1 h tx pe1 = Ok y1
    /\ deref (forward add normalize_row enc2 out h1)
       = forward_value add normalize_row enc2 h y1 pe2.
Proof.
  intros Hx Hpe1 Hpe2 Hn1 Hn2 Hnpe Hv1 Hv2 Hrun.
  rewrite Forall_forall in Hv1, Hv2.
  destruct (forward_returns enc1 h x tx pe1 out h1 Hx Hpe1 Hn1 Hv1 Hrun)
    as (x' & ext & y1 & -> & -> & Hout & Hval).
  exists y1. split; [done|].
  pose proof (lookup_lt_Some _ _ _ Hpe2) as Hlt.
  rewrite (forward_deref add normalize_row enc2 _ _ y1 pe2).
  - apply forward_value_agree. intros p Hp.
    apply store_frame; [by apply Hv2|]. intros ->. by apply Hn2.
  - done.
  - rewrite store_frame; [done|done|]. intros E. by apply Hnpe.
  - intros Hin. apply Hv2 in Hin. lia.
  - intros p Hp. rewrite length_app, length_insert. apply Hv2 in Hp. lia.
Qed.

(** Whatever the sub-blocks do, a tensor the forward pass returns has
    [d_model] as its last dimension, and so had the input. *)
Theorem forward_output_feature_dim (d_model k : nat) self h x tx out h' :
  Encoder_inv d_model k self h ->
  h !! x = Some tx ->
  x ∉ parameters self ->
  forward add normalize_row self x h = (Ok out, h') ->
  last (shape tx) = Some d_model
  /\ exists y, h' !! out = Some y /\ last (shape y) = Some d_model.
Proof.
  intros Hinv Hx Hnp Hrun.
  destruct (inv_PE _ _ _ _ Hinv) as (tpe & Hpe & Hspe).
  pose proof (inv_params _ _ _ _ Hinv) as Hv. rewrite Forall_forall in Hv.
  rewrite (forward_run add normalize_row self h x tx tpe Hx Hpe Hnp Hv) in Hrun.
  unfold forward_outcome in Hrun.
  destruct (add_value add tx tpe) as [x'|] eqn:Ex'; [|done].
  destruct (Attention _ _ _ _ _) as [a|]; [|done].
  destruct (add_value add a x') as [s1|] eqn:Es1; [|done].
  destruct (Normalize1 _ _ _ _) as [y1|] eqn:Ey1; [|done].
  destruct (FeedForward _ _ _) as [f|]; [|done].
  destruct (add_value add f x') as [s2|] eqn:Es2; [|done].
  destruct (Normalize2 _ _ _ _) as [y2|] eqn:Ey2; [|done].
  injection Hrun as <- <-.
  apply LayerNorm_value_Ok_inv in Ey1 as [Hl1 _].
  apply LayerNorm_value_Ok_inv in Ey2 as [Hl2 Hsy2].
  rewrite (inv_norm1 _ _ _ _ Hinv) in Hl1.
  rewrite (inv_norm2 _ _ _ _ Hinv) in Hl2.
  apply add_value_Ok_inv in Ex' as [Hbc0 Hsx'].
  apply add_value_Ok_inv in Es1 as [Hbc1 Hss1].
  split.
  - (* the residual of line 75 has the shape of the input *)
    destruct (last (shape tx)) as [d|] eqn:Ed; last first.
    { apply last_None in Ed. rewrite Ed, Hspe in Hbc0. done. }
    destruct (decide (d = 1)) as [->|Hd1].
    + destruct (decide (d_model = 1)) as [->|Hdm]; [done|].
      apply (infer_size_last _ _ d_model) in Hbc0; [|by rewrite Hspe|done].
      by rewrite Ed in Hbc0.
    + apply (infer_size_last _ _ d) in Hbc1; [|by rewrite Hsx'|done].
      rewrite <- Hss1, Hl1 in Hbc1. by injection Hbc1 as ->.
  - exists y2. split.
    + apply (store_new h x x' [s1; y1; s2] y2 []). simpl. lia.
    + by rewrite Hsy2.
Qed.

End ForwardStack.

(** ** What the positional injection computes *)

Section Injection.

Context {R : Type} (add : R -> R -> R).
Context (normalize_row : list R -> list R -> list R -> list R).
Implicit Types (h : heap R) (t : Tensor R) (self : Encoder R).

Lemma infer_size_rev_length (a b r : list nat) :
  infer_size_rev a b = Some r -> length r = max (length a) (length b).
Proof.
  revert b r. induction a as [|x a IH]; intros b r; simpl.
  - by intros [= <-].
  - destruct b as [|y b]; [by intros [= <-]|].
    destruct ((x =? y) || (x =? 1) || (y =? 1)); [|done].
    destruct (infer_size_rev a b) as [r'|] eqn:E; [|done].
    simpl. intros [= <-]. simpl. f_equal. by apply IH.
Qed.

(** An operand of higher rank than [self] does not broadcast onto it. *)
Lemma infer_size_rank (a b : list nat) :
  infer_size a b = Some a -> length b <= length a.
Proof.
  rewrite infer_size_unfold. intros E.
  apply infer_size_rev_length in E. rewrite !length_reverse in E. lia.
Qed.

(** An input with fewer than two dimensions is rejected by line 70, and
    nothing has been written. *)
Theorem forward_rejects_low_rank self h x tx tpe (k d_model : nat) :
  h !! x = Some tx ->
  h !! _PE self = Some tpe ->
  shape tpe = [k; d_model] ->
  length (shape tx) < 2 ->
  forward add normalize_row self x h = (Raise BroadcastError, h).
Proof.
  intros Hx Hpe Hspe Hrank.
  apply (forward_broadcast_error add normalize_row self h x tx tpe Hx Hpe).
  intros Hbc. apply infer_size_rank in Hbc. rewrite Hspe in Hbc. simpl in Hbc. lia.
Qed.

(** Chunks of equal length laid end to end are found again by their
    index. *)
Lemma flat_map_seq_lookup {B} (f : nat -> list B) s n c i r :
  (forall i', s <= i' < s + n -> length (f i') = c) ->
  i < n -> r < c ->
  flat_map f (seq s n) !! (i * c + r) = f (s + i) !! r.
Proof.
  revert s i. induction n as [|n IH]; intros s i Hlen Hi Hr; [lia|].
  simpl. destruct i as [|i].
  - rewrite lookup_app_l by (rewrite Hlen; lia).
    by rewrite Nat.add_0_r.
  - rewrite lookup_app_r by (rewrite Hlen; nia).
    rewrite Hlen by lia.
    replace (S i * c + r - c) with (i * c + r) by nia.
    rewrite (IH (S s) i); [| |lia|done].
    + by replace (S s + i) with (s + S i) by lia.
    + intros i' Hi'. apply Hlen. lia.
Qed.

(** The scalar the loop stores at the index (b, i, j) of a tensor of
    rank 3. *)
Lemma add_loop_lookup3 (B K d sB sK sD oB oK oD : nat) (sd od : list R) b i j :
  reads_within [B; K; d] [sB; sK; sD] 0 (length sd) ->
  reads_within [B; K; d] [oB; oK; oD] 0 (length od) ->
  b < B -> i < K -> j < d ->
  exists a p,
    sd !! (b * sB + i * sK + j * sD) = Some a
    /\ od !! (b * oB + i * oK + j * oD) = Some p
    /\ add_loop add [B; K; d] [sB; sK; sD] [oB; oK; oD] sd od 0 0
         !! (b * (K * d) + i * d + j) = Some (add a p).
Proof.
  intros Hs Ho Hb Hi Hj.
  pose proof (Hs b Hb i Hi j Hj) as Hsl. pose proof (Ho b Hb i Hi j Hj) as Hol.
  simpl in Hsl, Hol.
  destruct (lookup_lt_is_Some_2 sd _ Hsl) as [a Ha].
  destruct (lookup_lt_is_Some_2 od _ Hol) as [p Hp].
  exists a, p. split_and!; [done|done|].
  change (add_loop add [B; K; d] [sB; sK; sD] [oB; oK; oD] sd od 0 0)
    with (flat_map (fun b => add_loop add [K; d] [sK; sD] [oK; oD] sd od
                               (0 + b * sB) (0 + b * oB)) (seq 0 B)).
  replace (b * (K * d) + i * d + j) with (b * numel [K; d] + (i * d + j))
    by (simpl; lia).
  rewrite (flat_map_seq_lookup _ 0 B (numel [K; d])); [| |done|simpl; nia].
  2:{ intros b' Hb'. apply add_loop_length; [done|done| |].
      - exact (Hs b' ltac:(lia)).
      - exact (Ho b' ltac:(lia)). }
  change (add_loop add [K; d] [sK; sD] [oK; oD] sd od (0 + (0 + b) * sB)
            (0 + (0 + b) * oB))
    with (flat_map (fun i => add_loop add [d] [sD] [oD] sd od
                               (0 + (0 + b) * sB + i * sK)
                               (0 + (0 + b) * oB + i * oK)) (seq 0 K)).
  replace (i * d + j) with (i * numel [d] + j) by (simpl; lia).
  rewrite (flat_map_seq_lookup _ 0 K (numel [d])); [| |done|simpl; lia].
  2:{ intros i' Hi'. apply add_loop_length; [done|done| |].
      - exact (Hs b Hb i' ltac:(lia)).
      - exact (Ho b Hb i' ltac:(lia)). }
  change (add_loop add [d] [sD] [oD] sd od (0 + (0 + b) * sB + (0 + i) * sK)
            (0 + (0 + b) * oB + (0 + i) * oK))
    with (flat_map (fun j => add_loop add [] [] [] sd od
                               (0 + (0 + b) * sB + (0 + i) * sK + j * sD)
                               (0 + (0 + b) * oB + (0 + i) * oK + j * oD))
            (seq 0 d)).
  replace j with (j * 1 + 0) at 1 by lia.
  rewrite (flat_map_seq_lookup _ 0 d 1); [| |done|lia].
  2:{ intros j' Hj'.
      apply (add_loop_length add [] [] [] sd od); [done|done| |]; simpl.
      - exact (Hs b Hb i Hi j' ltac:(lia)).
      - exact (Ho b Hb i Hi j' ltac:(lia)). }
  simpl. by rewrite Ha, Hp.
Qed.

(** After the forward pass, returning or not, on an input of shape
    (B, K, d) the caller's tensor holds at (b, i, j) the sum of the
    scalar it held there and of the scalar of the table at (i, j): the
    same table is added to every element of the batch.  A table with a
    single row gives that row to every position, and a table with a
    single column gives that column to every feature. *)
Theorem forward_encodes_positions self h x tx tpe (B K d k d' b i j : nat) :
  h !! x = Some tx ->
  h !! _PE self = Some tpe ->
  shape tx = [B; K; d] -> shape tpe = [k; d'] -> wf tx -> wf tpe ->
  (k = K \/ k = 1) -> (d' = d \/ d' = 1) ->
  b < B -> i < K -> j < d ->
  exists a p x',
    data tx !! (b * (K * d) + i * d + j) = Some a
    /\ data tpe !! ((if k =? K then i else 0) * d'
                    + (if d' =? d then j else 0)) = Some p
    /\ snd (forward add normalize_row self x h) !! x = Some x'
    /\ shape x' = [B; K; d]
    /\ data x' !! (b * (K * d) + i * d + j) = Some (add a p).
Proof.
  intros Hx Hpe Hsx Hspe Hwx Hwpe HK Hd Hb Hi Hj. unfold wf in *.
  destruct (add_value_Ok add tx tpe) as (x' & Hadd & Hsx').
  { rewrite Hsx, Hspe. by apply infer_size_table. }
  pose proof (forward_input_written add normalize_row self h x tx tpe x'
                Hx Hpe Hadd) as Hw.
  pose proof (add_value_Ok_data add _ _ _ Hadd) as Hdata.
  rewrite Hsx, Hspe in Hdata.
  destruct (add_loop_lookup3 B K d (K * (d * 1)) (d * 1) 1
              0 (if k =? K then d' * 1 else 0) (if d' =? d then 1 else 0)
              (data tx) (data tpe) b i j)
    as (a & p & Ha & Hp & Hl); [| |done|done|done|].
  { apply (reads_within_contiguous [B; K; d]). rewrite Hwx, Hsx. lia. }
  { intros b' Hb' i' Hi' j' Hj'. rewrite Hwpe, Hspe. simpl.
    destruct (Nat.eqb_spec d' d), (Nat.eqb_spec k K); nia. }
  exists a, p, x'. split_and!.
  - rewrite <- Ha. f_equal. lia.
  - rewrite <- Hp. f_equal.
    destruct (Nat.eqb_spec d' d), (Nat.eqb_spec k K); lia.
  - done.
  - by rewrite Hsx', Hsx.
  - rewrite Hdata. exact Hl.
Qed.

End Injection.

(** ** The constructor *)

Section Constructor.

Context {R : Type} (zero one : R).
Context (MultiHeadAttention : nat -> nat -> nat -> nat -> M R (Block R)).
Context (PositionwiseFeedForward : nat -> M R (Block R)).
Context (generate_positional_encoding : nat -> nat -> Tensor R).
Implicit Types (h : heap R) (self : Encoder R).

(** The constructors of the external sub-blocks only allocate. *)
Hypothesis MultiHeadAttention_allocates :
  forall d_model q v hd, allocates_module (MultiHeadAttention d_model q v hd).
Hypothesis PositionwiseFeedForward_allocates :
  forall d_model, allocates_module (PositionwiseFeedForward d_model).

(** [__init__] only allocates: every tensor that existed before, for
    instance the table and the parameters of another encoder, is as it
    was. *)
Theorem __init___only_allocates (d_model q v hd k : nat) h0 self h :
  __init__ zero one MultiHeadAttention PositionwiseFeedForward
    generate_positional_encoding d_model q v hd k h0 = (Ok self, h) ->
  exists ext, h = h0 ++ ext /\ 5 <= length ext.
Proof.
  intros Hinit. unfold __init__, bind in Hinit.
  destruct (MultiHeadAttention d_model q v hd h0) as [[sa|e] h1] eqn:Esa; [|done].
  destruct (MultiHeadAttention_allocates _ _ _ _ _ _ _ Esa) as [[ext1 ->] _].
  destruct (PositionwiseFeedForward d_model (h0 ++ ext1)) as [[ff|e] h2] eqn:Eff;
    [|done].
  destruct (PositionwiseFeedForward_allocates _ _ _ _ Eff) as [[ext2 ->] _].
  unfold LayerNorm_init, bind, alloc, ret in Hinit. injection Hinit as _ <-.
  eexists. split; [by rewrite <- !app_assoc|].
  rewrite !length_app. simpl. lia.
Qed.

(** The two normalisations are independent instances: their weights and
    biases are four different tensors created by [__init__], none of
    them is a parameter of a sub-block, the weights start as ones and
    the biases as zeros, of size [d_model]. *)
Theorem __init___norms_independent (d_model q v hd k : nat) h0 self h :
  __init__ zero one MultiHeadAttention PositionwiseFeedForward
    generate_positional_encoding d_model q v hd k h0 = (Ok self, h) ->
  let ln1 := _layerNorm1 self in
  let ln2 := _layerNorm2 self in
  NoDup (parameters ln1 ++ parameters ln2)
  /\ Forall (fun p => length h0 <= p
                      /\ (p ∉ parameters (_selfAttention self))
                      /\ (p ∉ parameters (_feedForward self)))
            (parameters ln1 ++ parameters ln2)
  /\ h !! weight ln1 = Some (mkTensor [d_model] (replicate d_model one))
  /\ h !! bias ln1 = Some (mkTensor [d_model] (replicate d_model zero))
  /\ h !! weight ln2 = Some (mkTensor [d_model] (replicate d_model one))
  /\ h !! bias ln2 = Some (mkTensor [d_model] (replicate d_model zero)).
Proof.
  intros Hinit.
  apply (__init___run zero one MultiHeadAttention PositionwiseFeedForward
           generate_positional_encoding MultiHeadAttention_allocates
           PositionwiseFeedForward_allocates) in Hinit
    as (sa & ff & hb & -> & -> & Hlen & Hsa & Hff).
  rewrite Forall_forall in Hsa, Hff.
  unfold parameters, LayerNorm_Module, Block_Module in *. simpl in *.
  split_and!.
  - repeat (apply NoDup_cons_2;
            [intros Hin;
             repeat (apply elem_of_cons in Hin as [Hin|Hin]; [lia|]);
             by apply elem_of_nil in Hin|]).
    apply NoDup_nil_2.
  - repeat (apply Forall_cons_2;
            [split_and!; [lia | intros Hin; apply Hsa in Hin; lia
                          | intros Hin; apply Hff in Hin; lia]|]).
    apply Forall_nil_2.
  - rewrite (lookup_app_r hb) by lia.
    by replace (length hb - length hb) with 0 by lia.
  - rewrite (lookup_app_r hb) by lia.
    by replace (length hb + 1 - length hb) with 1 by lia.
  - rewrite (lookup_app_r hb) by lia.
    by replace (length hb + 2 - length hb) with 2 by lia.
  - rewrite (lookup_app_r hb) by lia.
    by replace (length hb + 3 - length hb) with 3 by lia.
Qed.

End Constructor.

(** ** The further properties on the concrete encoder *)

Section ConcreteFurther.
Import Fixture FixtureFacts.

Ltac not_stored :=
  let H := fresh in
  intros H; cbv in H;
  repeat (apply elem_of_cons in H as [H|H]; [discriminate|]);
  by apply elem_of_nil in H.

Ltac all_stored :=
  repeat (apply Forall_cons_2; [simpl; lia|]); apply Forall_nil_2.

Example init_again d_model k x :
  init d_model k (store d_model k x) = (Ok (encoder2 d_model), store2 d_model k x).
Proof. reflexivity. Qed.

Lemma __init___inv_witness : Encoder_inv 2 1 (encoder 2) (store 2 1 x1).
Proof.
  apply (__init___inv 0%Z 1%Z
           (fun d _ _ _ => shift_block d 100) (fun d => shift_block d 1000) table
           (fun d _ _ _ => shift_block_allocates d 100)
           (fun d => shift_block_allocates d 1000)
           2 1 1 1 1 [x1] (encoder 2) (store 2 1 x1)); reflexivity.
Defined.

Lemma forward_keeps_inv_witness :
  Encoder_inv 1 1 (encoder 1) (snd (forward (encoder 1) 0 (store 1 1 x2))).
Proof.
  apply (forward_keeps_inv Z.add affine_row 1 1 (encoder 1) 0 (store 1 1 x2)).
  - apply encoder_inv.
  - discriminate.
Defined.

Lemma forward_raise_after_injection_witness :
  snd (forward (encoder 1) 0 (store 1 1 x2)) !! 0
  = Some (mkTensor [1; 2; 2] [11; 12; 13; 14]%Z).
Proof.
  apply (forward_raise_after_injection Z.add affine_row (encoder 1)
           (store 1 1 x2) 0 x2 (table 1 1) _ NormalizedShapeError);
    reflexivity.
Defined.

Lemma forward_on_table_doubles_it_witness :
  exists t2,
    add_value Z.add (table 1 2) (table 1 2) = Ok t2
    /\ snd (forward (encoder 2) 7 (store 2 1 x1)) !! 7 = Some t2.
Proof.
  apply (forward_on_table_doubles_it Z.add affine_row (encoder 2)
           (store 2 1 x1) (table 1 2)).
  reflexivity.
Defined.

Lemma forward_keeps_parameters_witness :
  Forall (fun p => snd (forward (encoder 2) 0 (store 2 1 x1)) !! p
                   = store 2 1 x1 !! p)
         (parameters (encoder 2)).
Proof.
  apply (forward_keeps_parameters Z.add affine_row (encoder 2) (store 2 1 x1) 0).
  - not_stored.
  - all_stored.
Defined.

Lemma forward_after_forward_witness :
  deref (forward (encoder 2) 8
           (snd (forward (encoder 2) 0 (store 2 1 x2 ++ [x1]))))
  = deref (forward (encoder 2) 8 (store 2 1 x2 ++ [x1])).
Proof.
  apply (forward_after_forward Z.add affine_row (encoder 2)
           (store 2 1 x2 ++ [x1]) 0 8 x1 (table 1 2)).
  - reflexivity.
  - reflexivity.
  - discriminate.
  - discriminate.
  - not_stored.
  - not_stored.
  - all_stored.
Defined.

Lemma forward_twice_same_object_witness :
  deref (forward (encoder 2) 0 (snd (forward (encoder 2) 0 (store 2 1 x1))))
  = forward_value Z.add affine_row (encoder 2) (store 2 1 x1)
      (mkTensor [1; 1; 2] [11; 22]%Z) (table 1 2).
Proof.
  apply (forward_twice_same_object Z.add affine_row (encoder 2)
           (store 2 1 x1) 0 x1 (table 1 2)).
  - reflexivity.
  - reflexivity.
  - reflexivity.
  - discriminate.
  - not_stored.
  - all_stored.
Defined.

Lemma forward_stack_witness :
  exists y1,
    forward_value Z.add affine_row (encoder 2) (store2 2 1 x1) x1 (table 1 2)
    = Ok y1
    /\ deref (forward (encoder2 2) 18
                (snd (forward (encoder 2) 0 (store2 2 1 x1))))
       = forward_value Z.add affine_row (encoder2 2) (store2 2 1 x1) y1
           (table 1 2).
Proof.
  apply (forward_stack Z.add affine_row (encoder 2) (encoder2 2)
           (store2 2 1 x1) 0 x1 (table 1 2) (table 1 2) 18).
  - reflexivity.
  - reflexivity.
  - reflexivity.
  - not_stored.
  - not_stored.
  - discriminate.
  - all_stored.
  - all_stored.
  - reflexivity.
Defined.

Lemma forward_output_feature_dim_witness :
  last (shape x1) = Some 2
  /\ exists y,
       snd (forward (encoder 2) 0 (store 2 1 x1)) !! 11 = Some y
       /\ last (shape y) = Some 2.
Proof.
  apply (forward_output_feature_dim Z.add affine_row 2 1 (encoder 2)
           (store 2 1 x1) 0 x1 11).
  - apply encoder_inv.
  - reflexivity.
  - not_stored.
  - reflexivity.
Defined.

Lemma forward_rejects_low_rank_witness :
  forward (encoder 2) 0 (store 2 1 x4) = (Raise BroadcastError, store 2 1 x4).
Proof.
  apply (forward_rejects_low_rank Z.add affine_row (encoder 2)
           (store 2 1 x4) 0 x4 (table 1 2) 1 2);
    [reflexivity | reflexivity | reflexivity | simpl; lia].
Defined.

Lemma forward_encodes_positions_witness :
  exists a p x',
    data x2 !! (0 * (2 * 2) + 1 * 2 + 0) = Some a
    /\ data (table 2 2) !! ((if 2 =? 2 then 1 else 0) * 2
                            + (if 2 =? 2 then 0 else 0)) = Some p
    /\ snd (forward (encoder 2) 0 (store 2 2 x2)) !! 0 = Some x'
    /\ shape x' = [1; 2; 2]
    /\ data x' !! (0 * (2 * 2) + 1 * 2 + 0) = Some (a + p)%Z.
Proof.
  apply (forward_encodes_positions Z.add affine_row (encoder 2)
           (store 2 2 x2) 0 x2 (table 2 2) 1 2 2 2 2 0 1 0);
    try reflexivity; lia.
Defined.

Lemma __init___only_allocates_witness :
  exists ext, store 2 1 x1 = [x1] ++ ext /\ 5 <= length ext.
Proof.
  apply (__init___only_allocates 0%Z 1%Z
           (fun d _ _ _ => shift_block d 100) (fun d => shift_block d 1000) table
           (fun d _ _ _ => shift_block_allocates d 100)
           (fun d => shift_block_allocates d 1000)
           2 1 1 1 1 [x1] (encoder 2) (store 2 1 x1)).
  reflexivity.
Defined.

Lemma __init___norms_independent_witness :
  let ln1 := _layerNorm1 (encoder 2) in
  let ln2 := _layerNorm2 (encoder 2) in
  NoDup (parameters ln1 ++ parameters ln2)
  /\ Forall (fun p => length [x1] <= p
                      /\ (p ∉ parameters (_selfAttention (encoder 2)))
                      /\ (p ∉ parameters (_feedForward (encoder 2))))
            (parameters ln1 ++ parameters ln2)
  /\ store 2 1 x1 !! weight ln1 = Some (mkTensor [2] (replicate 2 1%Z))
  /\ store 2 1 x1 !! bias ln1 = Some (mkTensor [2] (replicate 2 0%Z))
  /\ store 2 1 x1 !! weight ln2 = Some (mkTensor [2] (replicate 2 1%Z))
  /\ store 2 1 x1 !! bias ln2 = Some (mkTensor [2] (replicate 2 0%Z)).
Proof.
  apply (__init___norms_independent 0%Z 1%Z
           (fun d _ _ _ => shift_block d 100) (fun d => shift_block d 1000) table
           (fun d _ _ _ => shift_block_allocates d 100)
           (fun d => shift_block_allocates d 1000)
           2 1 1 1 1 [x1] (encoder 2) (store 2 1 x1)).
  reflexivity.
Defined.

End ConcreteFurther.

(** ** The life of the positional table *)

Section TableLifecycle.

Context {R : Type} (add : R -> R -> R).
Context (normalize_row : list R -> list R -> list R -> list R).
Context (zero one : R).
Context (MultiHeadAttention : nat -> nat -> nat -> nat -> M R (Block R)).
Context (PositionwiseFeedForward : nat -> M R (Block R)).
Context (generate_positional_encoding : nat -> nat -> Tensor R).
Implicit Types (h : heap R) (t : Tensor R) (self : Encoder R).

(** The constructors of the external sub-blocks only allocate. *)
Hypothesis MultiHeadAttention_allocates :
  forall d_model q v hd, allocates_module (MultiHeadAttention d_model q v hd).
Hypothesis PositionwiseFeedForward_allocates :
  forall d_model, allocates_module (PositionwiseFeedForward d_model).

(** Claim C7, amended.  The positional table is created by the
    constructor, as a new object holding what the generator returned,
    and it is not among the parameters of the layer.  No forward pass
    whose argument shares no storage with the table (in the store: is
    another cell) changes it, whether that pass returns or raises.  The
    layer keeps no other state from one call to the next: the outcome of
    a forward pass depends on the store through the values of the input,
    of the table and of the parameters only. *)
Theorem positional_table_lifecycle :
  (forall d_model q v hd k h0 self h,
      __init__ zero one MultiHeadAttention PositionwiseFeedForward
        generate_positional_encoding d_model q v hd k h0 = (Ok self, h) ->
      length h0 <= _PE self
      /\ h !! _PE self = Some (generate_positional_encoding k d_model)
      /\ _PE self ∉ parameters self)
  /\ (forall self h x,
        x ≠ _PE self ->
        is_Some (h !! _PE self) ->
        snd (forward add normalize_row self x h) !! _PE self = h !! _PE self)
  /\ (forall self h1 h2 x1 x2 tx tpe,
        h1 !! x1 = Some tx -> h2 !! x2 = Some tx ->
        h1 !! _PE self = Some tpe -> h2 !! _PE self = Some tpe ->
        (forall p, p ∈ parameters self -> h1 !! p = h2 !! p) ->
        Forall (fun p => p < length h1) (parameters self) ->
        x1 ∉ parameters self -> x2 ∉ parameters self ->
        deref (forward add normalize_row self x1 h1)
        = deref (forward add normalize_row self x2 h2)).
Proof.
  split_and!.
  - intros d_model q v hd k h0 self h Hinit.
    destruct (__init___parameters zero one MultiHeadAttention
                PositionwiseFeedForward generate_positional_encoding
                MultiHeadAttention_allocates PositionwiseFeedForward_allocates
                _ _ _ _ _ _ _ _ Hinit) as [Hps _].
    apply (__init___run zero one MultiHeadAttention PositionwiseFeedForward
             generate_positional_encoding MultiHeadAttention_allocates
             PositionwiseFeedForward_allocates) in Hinit
      as (sa & ff & hb & -> & -> & Hlen & _).
    simpl in *. split_and!.
    + lia.
    + rewrite (lookup_app_r hb) by lia.
      by replace (length hb + 4 - length hb) with 4 by lia.
    + intros Hin. rewrite Forall_forall in Hps. apply Hps in Hin. lia.
  - intros self h x Hne Hpe.
    destruct (forward_frame add normalize_row self x h) as [_ Hfr].
    apply Hfr; [|done]. by apply lookup_lt_is_Some.
  - intros self h1 h2 x1 x2 tx tpe Hx1 Hx2 Hpe1 Hpe2 Hag Hv Hn1 Hn2.
    rewrite Forall_forall in Hv.
    assert (forall p, p ∈ parameters self -> p < length h2) as Hv2.
    { intros p Hp. apply lookup_lt_is_Some. rewrite <- Hag by done.
      apply lookup_lt_is_Some. by apply Hv. }
    rewrite (forward_deref add normalize_row self h1 x1 tx tpe) by done.
    rewrite (forward_deref add normalize_row self h2 x2 tx tpe) by done.
    by apply (forward_value_agree add normalize_row self h2 h1).
Qed.

End TableLifecycle.

Section ConcreteTable.
Import Fixture FixtureFacts.

(** Claim C7 fails when the argument is the table itself: line 70 then
    adds the table to itself in place. *)
Lemma forward_on_table_changes_table :
  store 2 1 x1 !! _PE (encoder 2) = Some (mkTensor [1; 2] [10; 20]%Z)
  /\ snd (forward (encoder 2) (_PE (encoder 2)) (store 2 1 x1)) !! _PE (encoder 2)
     = Some (mkTensor [1; 2] [20; 40]%Z).
Proof. split; reflexivity. Qed.

Lemma positional_table_lifecycle_witness :
  (length [x1] <= _PE (encoder 2)
   /\ store 2 1 x1 !! _PE (encoder 2) = Some (table 1 2)
   /\ _PE (encoder 2) ∉ parameters (encoder 2))
  /\ snd (forward (encoder 2) 0 (store 2 1 x1)) !! _PE (encoder 2)
     = store 2 1 x1 !! _PE (encoder 2)
  /\ deref (forward (encoder 2) 0 (store 2 1 x1))
     = deref (forward (encoder 2) 8 (store 2 1 x2 ++ [x1])).
Proof.
  destruct (positional_table_lifecycle Z.add affine_row 0%Z 1%Z
              (fun d _ _ _ => shift_block d 100) (fun d => shift_block d 1000)
              table
              (fun d _ _ _ => shift_block_allocates d 100)
              (fun d => shift_block_allocates d 1000))
    as (Hinit & Hfwd & Hstate).
  split; [|split].
  - apply (Hinit 2 1 1 1 1 [x1] (encoder 2) (store 2 1 x1)). reflexivity.
  - apply (Hfwd (encoder 2) (store 2 1 x1) 0); [discriminate | by eexists].
  - apply (Hstate (encoder 2) (store 2 1 x1) (store 2 1 x2 ++ [x1]) 0 8 x1
             (table 1 2)).
    + reflexivity.
    + reflexivity.
    + reflexivity.
    + reflexivity.
    + intros p Hp.
      repeat (apply elem_of_cons in Hp as [->|Hp]; [reflexivity|]).
      by apply elem_of_nil in Hp.
    + apply (inv_params _ _ _ _ (encoder_inv 2 1 x1)).
    + apply input_not_parameter.
    + apply fresh_not_parameter. lia.
Defined.

End ConcreteTable.
